(** * Lifjell Opp 2025 image import: a model of [bin/import-images/import.py]

    The script copies the JPEG files of a source directory into
    [<destination>/images] under the sequential names [LOP25-nnnn.jpeg],
    optionally stamps the EXIF Artist tag, writes a thumbnail of every file
    into [<destination>/thumbs] and appends the new names to a TOML index.

    Conventions of the model.
    - File and directory names are [string]s (8-bit characters).  In that
      range the characters accepted by the regular expression class [\d] and
      by [int] are exactly ['0'] .. ['9'].
    - Serial numbers are Python integers that never become negative; they
      are modelled by [N].
    - A directory is a finite map from names to nodes, a dict loaded from
      TOML is a finite map from keys to values.
    - Pillow, piexif, the copy of a file and the write of the index are
      outside the script.  Their outcomes are supplied by a record of
      functions ([library]); the script's own control flow, its exception
      handlers and its use of the results are modelled in full. *)

From Stdlib Require Import String Ascii NArith List Lia.
From stdpp Require Import base option list gmap strings sorting pretty.

Local Open Scope string_scope.
Local Open Scope N_scope.
Local Open Scope list_scope.

(** ** Names: the pattern of line 32 and the template of line 204 *)

Module Name.

(** [\d] on one character. *)
Definition is_digit (a : ascii) : bool :=
  (48 <=? N_of_ascii a) && (N_of_ascii a <=? 57).

Definition digit_val (a : ascii) : N := N_of_ascii a - 48.

(** [int(s)] for a string of decimal digits, most significant first. *)
Fixpoint int_from (acc : N) (s : string) : N :=
  match s with
  | "" => acc
  | String a s' => int_from (10 * acc + digit_val a) s'
  end.
Definition int (s : string) : N := int_from 0 s.

(** A literal piece of a pattern, matched at the start of [s]; the result is
    what follows it. *)
Fixpoint literal (p s : string) : option string :=
  match p, s with
  | "", _ => Some s
  | String a p', String b s' => if Ascii.eqb a b then literal p' s' else None
  | String _ _, "" => None
  end.

(** [(\d{n})] at the start of [s]: the captured group and what follows. *)
Fixpoint digits (n : nat) (s : string) : option (string * string) :=
  match n, s with
  | O, _ => Some ("", s)
  | S n', String a s' =>
      if is_digit a
      then '(g, r) ← digits n' s'; Some (String a g, r)
      else None
  | S _, "" => None
  end.

(** [re.compile(r'LOP25-(\d{4})\.jpeg').match(name)], giving [group(1)].
    [match] anchors the pattern at the start of the name only: whatever
    follows [.jpeg] is accepted. *)
Definition pattern_match (name : string) : option string :=
  r1 ← literal "LOP25-" name;
  '(g, r2) ← digits 4 r1;
  _ ← literal ".jpeg" r2;
  Some g.

(** [s.rjust(w, '0')] for an unsigned number, as the format [:04d] pads. *)
Definition zfill (w : nat) (s : string) : string :=
  string_of_list_ascii (replicate (w - String.length s) "0"%char) +:+ s.

(** [f"{n:04d}"]: decimal, at least four characters wide. *)
Definition fmt04 (n : N) : string := zfill 4 (pretty n).

(** [f"LOP25-{current_num:04d}.jpeg"] (line 204). *)
Definition serial_name (n : N) : string := "LOP25-" +:+ fmt04 n +:+ ".jpeg".

(** The names the specification calls "matching the fixed pattern": the prefix, exactly
    four digits, the extension, and nothing else. *)
Definition exact_serial (name : string) : option string :=
  r1 ← literal "LOP25-" name;
  '(g, r2) ← digits 4 r1;
  if String.eqb r2 ".jpeg" then Some g else None.

(** The serial number the allocator reads off a name. *)
Definition serial_of (name : string) : option N := int <$> pattern_match name.

(** Strings made of decimal digits only. *)
Definition all_digits (s : string) : Prop :=
  Forall (λ a, is_digit a = true) (list_ascii_of_string s).

(** The digits of [x], none for [0]. *)
Definition dec (x : N) : string := pretty_N_go x "".

Definition zeros (n : nat) : string :=
  string_of_list_ascii (replicate n "0"%char).

End Name.

(** ** The file system the script sees *)

Definition content := string.

Inductive node :=
| File (c : content)
| Dir.

Definition is_file (n : node) : bool :=
  match n with File _ => true | Dir => false end.

(** An entry produced by [iterdir]: a name and what it names. *)
Definition entry : Type := string * node.

(** ** Identifier allocator (lines 22-45) *)

(** One turn of the loop of lines 38-43. *)
Definition scan_step (max_num : N) (e : entry) : N :=
  if is_file e.2 then
    match Name.pattern_match e.1 with
    | Some g => N.max max_num (Name.int g)
    | None => max_num
    end
  else max_num.

(** [dest_dir] is [None] when the directory does not exist, and otherwise the
    entries [iterdir] yields, in the order it yields them. *)
Definition find_highest_serial_number (dest_dir : option (list entry)) : N :=
  match dest_dir with
  | None => 0
  | Some listing => fold_left scan_step listing 0
  end.

(** The serial numbers a listing holds: those of the files whose name the
    pattern matches. *)
Definition serials (listing : list entry) : list N :=
  omap (λ e : entry, if is_file e.2 then Name.serial_of e.1 else None) listing.

(** [m] is the greatest element of [ns], or [0] when there is none above. *)
Definition greatest (m : N) (ns : list N) : Prop :=
  (∀ n, n ∈ ns → n ≤ m) ∧ (m ∈ ns ∨ m = 0).

(** The allocator as the specification words it: the maximum over the files
    whose whole name is the prefix, four digits and the extension. *)
Definition spec_scan_step (max_num : N) (e : entry) : N :=
  if is_file e.2 then
    match Name.exact_serial e.1 with
    | Some g => N.max max_num (Name.int g)
    | None => max_num
    end
  else max_num.

Definition spec_highest_serial_number (dest_dir : option (list entry)) : N :=
  match dest_dir with
  | None => 0
  | Some listing => fold_left spec_scan_step listing 0
  end.

(** ** Source enumerator (lines 48-64) *)

(** [fnmatch] of a name against a pattern of the form [*suffix]. *)
Fixpoint ends_with (suffix name : string) : bool :=
  if String.eqb name suffix then true
  else match name with
       | "" => false
       | String _ name' => ends_with suffix name'
       end.

(** The four patterns of line 61, without their leading star. *)
Definition patterns : list string := [".jpeg"; ".jpg"; ".JPEG"; ".JPG"].

(** The names the enumerator is to return: those with one of the accepted
    extensions. *)
Definition accepted (name : string) : bool :=
  existsb (λ p, ends_with p name) patterns.

(** [source_dir.glob('*' + suffix)] over the names of the directory, in the
    order the system lists them. *)
Definition glob (suffix : string) (names : list string) : list string :=
  filter (λ n, ends_with suffix n = true) names.

(** The result of [sorted]: paths of one directory compare by name. *)
Definition sorted : list string → list string := merge_sort String.le.

Definition get_image_files (names : list string) : list string :=
  sorted (fold_left (λ image_files p, (image_files ++ glob p names)%list)
            patterns []).

(** ** TOML documents *)

(** The values [toml.load] builds.  Floats and dates are kept as their text:
    the script never looks inside them. *)
#[warnings="-register-all"]
Inductive toml :=
| TString (s : string)
| TInteger (z : Z)
| TBool (b : bool)
| TScalar (text : string)
| TArray (l : list toml)
| TTable (m : gmap string toml).

(** What the index path holds: nothing, something [toml.load] raises on, or
    a document.  The text [toml.dump] writes is identified with the dict it
    was given. *)
Inductive index_state :=
| NoIndex
| Unloadable
| Document (data : gmap string toml).

(** ** What the script prints *)

Inductive event :=
| ErrNoSource                           (* line 173 *)
| ErrSourceNotDir                       (* line 177 *)
| FoundHighest (n : N)                  (* line 189 *)
| NoJpegFound                           (* line 194 *)
| FoundFiles (n : nat)                  (* line 197 *)
| WarnExif (name : string)              (* line 90 *)
| WarnThumbnail (name : string)         (* line 117 *)
| WarnTomlLoad                          (* line 133 *)
| UpdatedIndex                          (* line 150 *)
| ErrTomlWrite                          (* line 152 *)
| Imported (source new_name : string)   (* line 215 *)
| Success (count : nat).                (* line 223 *)

(** ** The libraries the script calls *)

(** How a call of [Image.save] on a path ends.  Pillow loads the pixels,
    opens the path for writing, which empties an existing file, and only then
    runs the encoder. *)
Inductive save_outcome :=
| Saved (c : content)
| RaisedBeforeOpen
| RaisedWhileWriting (written : content).

(** How [open(index_file, 'w')] followed by [toml.dump] ends; after a failed
    dump the path holds whatever the interrupted write left. *)
Inductive write_outcome :=
| Written
| OpenRaised
| DumpRaised (rest : index_state).

Record save_options := SaveOptions {
  format : option string;
  quality : option N;
  optimize : bool;
  exif : option content
}.

Record library := Library {
  image : Type;
  exif_dict : Type;
  (** [shutil.copy2] of this source file raises. *)
  copy2_raises : string → bool;
  (** What a copy that raises has written to its destination by then; [None]
      when it raised before opening the destination. *)
  copy2_leaves : string → option content;
  (** [Image.open]; [None] when it raises. *)
  Image_open : content → option image;
  image_mode : image → string;
  (** [image.info.get('exif', b'')] *)
  info_exif : image → content;
  piexif_load : content → option exif_dict;
  (** [photographer.encode('utf-8')] *)
  encode_utf8 : string → option content;
  (** [exif_dict['0th'][piexif.ImageIFD.Artist] = v] *)
  set_artist : exif_dict → content → exif_dict;
  piexif_dump : exif_dict → option content;
  (** [image.convert('RGB')] *)
  convert_RGB : image → option image;
  (** [image.thumbnail(size, Image.Resampling.LANCZOS)] *)
  thumbnail : N * N → image → option image;
  (** The encoder behind [image.save]. *)
  encode : image → save_options → save_outcome;
  (** The write of lines 148-149. *)
  toml_write : gmap string toml → write_outcome
}.



(** ** State and control *)

Record state := State {
  images : gmap string node;      (* <destination>/images *)
  thumbs : gmap string node;      (* <destination>/thumbs *)
  index : index_state;            (* the path given by --index-file *)
  out : list event                (* standard output *)
}.

Definition set_images (f : gmap string node → gmap string node) (s : state) :=
  State (f (images s)) (thumbs s) (index s) (out s).
Definition set_thumbs (f : gmap string node → gmap string node) (s : state) :=
  State (images s) (f (thumbs s)) (index s) (out s).
Definition set_index (i : index_state) (s : state) :=
  State (images s) (thumbs s) i (out s).
Definition add_out (e : event) (s : state) :=
  State (images s) (thumbs s) (index s) (out s ++ [e]).

(** A command runs on a state and either returns a value or leaves with an
    exception ([None]); what it did to the state before raising stays done. *)
Definition cmd (A : Type) : Type := state → state * option A.

Definition ret {A} (a : A) : cmd A := λ s, (s, Some a).
Definition raise {A} : cmd A := λ s, (s, None).
Definition bind {A B} (m : cmd A) (k : A → cmd B) : cmd B :=
  λ s, match m s with
       | (s', Some a) => k a s'
       | (s', None) => (s', None)
       end.
(** [try: body except Exception: handler] *)
Definition try_except {A} (body handler : cmd A) : cmd A :=
  λ s, match body s with
       | (s', None) => handler s'
       | r => r
       end.
Definition get : cmd state := λ s, (s, Some s).
Definition modify (f : state → state) : cmd unit := λ s, (f s, Some tt).
Definition print (e : event) : cmd unit := modify (add_out e).
(** A library call that may raise. *)
Definition call {A} (r : option A) : cmd A := λ s, (s, r).

Declare Scope cmd_scope.
Delimit Scope cmd_scope with cmd.
Notation "x <- m ;; k" := (bind m (λ x, k))
  (at level 100, m at next level, right associativity) : cmd_scope.
Notation "m ;; k" := (bind m (λ _, k))
  (at level 100, right associativity) : cmd_scope.
Local Open Scope cmd_scope.

(** [for x in l], with the local variables the body updates as [acc]. *)
Fixpoint for_each {A B} (l : list A) (acc : B) (body : B → A → cmd B) : cmd B :=
  match l with
  | [] => ret acc
  | x :: l' => acc' <- body acc x ;; for_each l' acc' body
  end.

(** ** Views of a state, for the statements below *)

(** [s] with the entry of [name] in the two destination directories replaced
    and [ev] printed. *)
Definition put (name : string) (i t : option node) (ev : list event)
    (s : state) : state :=
  State (partial_alter (λ _, i) name (images s))
        (partial_alter (λ _, t) name (thumbs s))
        (index s) (out s ++ ev).

(** A command that works on the entries of one name only: what it does and
    returns is a function of what the two directories hold under that name. *)
Definition local {A} (name : string) (c : cmd A) : Type :=
  { F : option node → option node →
        option node * option node * list event * option A
  | ∀ s, c s = let r := F (images s !! name) (thumbs s !! name) in
               (put name r.1.1.1 r.1.1.2 r.1.2 s, r.2) }.

Section Script.

Variable L : library.

(** ** Operations on one path

    An operation on a path sees what the path holds ([None]: nothing) and
    leaves what it holds afterwards; it returns a value or raises. *)
Definition in_images {A} (path : string)
    (op : option node → option node * option A) : cmd A :=
  λ s, let r := op (images s !! path) in
       (set_images (partial_alter (λ _, r.1) path) s, r.2).

Definition in_thumbs {A} (path : string)
    (op : option node → option node * option A) : cmd A :=
  λ s, let r := op (thumbs s !! path) in
       (set_thumbs (partial_alter (λ _, r.1) path) s, r.2).

(** [Image.open(path)]: raises unless the path holds a file Pillow
    identifies. *)
Definition open_image (e : option node) : option (image L) :=
  match e with
  | Some (File c) => Image_open L c
  | _ => None
  end.

(** [image.save(path, ...)], as Pillow (9.1 and later, which
    [Image.Resampling] requires) does it: the pixels are loaded first; the
    path is opened with mode [w+b], which raises on a directory and empties
    an existing file; then the encoder writes.  If the encoder raises, a file
    that [save] itself created is removed, and a file that existed before is
    left with what had been written. *)
Definition Image_save (o : save_outcome) (e : option node)
    : option node * option unit :=
  match o, e with
  | RaisedBeforeOpen, _ => (e, None)
  | _, Some Dir => (e, None)
  | Saved c, _ => (Some (File c), Some tt)
  | RaisedWhileWriting _, None => (None, None)
  | RaisedWhileWriting w, Some (File _) => (Some (File w), None)
  end.

(** [shutil.copy2(source, path)] once the source has been read.  A copy onto
    the name of a directory lands inside that directory and leaves the entry
    as it is. *)
Definition copy_onto (c : content) (e : option node)
    : option node * option unit :=
  match e with
  | Some Dir => (e, Some tt)
  | _ => (Some (File c), Some tt)
  end.

(** [shutil.copy2(source, path)] when it raises after the source has been
    opened: before the destination is opened nothing has changed; afterwards
    the destination is a file with what was written by then (all of it when
    only the copy of the metadata failed).  Under the name of a directory the
    file is inside that directory. *)
Definition copy_interrupted (written : option content) (e : option node)
    : option node * option unit :=
  match written, e with
  | None, _ => (e, None)
  | Some _, Some Dir => (e, None)
  | Some w, _ => (Some (File w), None)
  end.

(** ** Metadata stamper (lines 67-90) *)

(** The statements of the [try] block, lines 77-87. *)
Definition stamp (image_file photographer : string) : cmd unit :=
  im <- in_images image_file (λ e, (e, open_image e)) ;;
  exif_dict <- call (piexif_load L (info_exif L im)) ;;
  artist <- call (encode_utf8 L photographer) ;;
  exif_bytes <- call (piexif_dump L (set_artist L exif_dict artist)) ;;
  in_images image_file
    (Image_save (encode L im (SaveOptions None None false (Some exif_bytes)))).

Definition update_exif_artist (image_file photographer : string) : cmd unit :=
  try_except (stamp image_file photographer) (print (WarnExif image_file)).

(** How the encoder ends in the save of line 87, for the image of line 78
    and the EXIF block of lines 81-84; [None] when one of the statements
    before the save raises. *)
Definition stamp_save (image_file photographer : string) (s : state)
    : option save_outcome :=
  im ← open_image (images s !! image_file);
  exif_dict ← piexif_load L (info_exif L im);
  artist ← encode_utf8 L photographer;
  exif_bytes ← piexif_dump L (set_artist L exif_dict artist);
  Some (encode L im (SaveOptions None None false (Some exif_bytes))).

(** ** Derivative generator (lines 93-117) *)

(** The statements of the [try] block, lines 106-114. *)
Definition derive (source_dir : gmap string node)
    (source_file thumb_name : string) (max_width max_height : N) : cmd unit :=
  im <- call (open_image (source_dir !! source_file)) ;;
  im <- (if bool_decide (image_mode L im ∈ ["RGBA"; "P"])
         then call (convert_RGB L im) else ret im) ;;
  im <- call (thumbnail L (max_width, max_height) im) ;;
  in_thumbs thumb_name
    (Image_save (encode L im (SaveOptions (Some "JPEG") (Some 85) true None))).

Definition create_thumbnail (source_dir : gmap string node)
    (source_file thumb_name : string) (max_width max_height : N) : cmd unit :=
  try_except (derive source_dir source_file thumb_name max_width max_height)
             (print (WarnThumbnail source_file)).

(** ** Index merger (lines 120-152) *)

(** [{'file': image_file}] *)
Definition image_entry (image_file : string) : toml :=
  TTable {["file" := TString image_file]}.

(** [data['images'].append({'file': image_file})]: raises ([None]) unless
    the value under ['images'] is a list. *)
Definition append_image (data : gmap string toml) (image_file : string)
    : option (gmap string toml) :=
  match data !! "images" with
  | Some (TArray l) =>
      Some (<["images" := TArray (l ++ [image_entry image_file])]> data)
  | _ => None
  end.

(** The loop of lines 143-144. *)
Fixpoint append_images (data : gmap string toml) (image_files : list string)
    : option (gmap string toml) :=
  match image_files with
  | [] => Some data
  | image_file :: rest =>
      data' ← append_image data image_file; append_images data' rest
  end.

(** Lines 129-136. *)
Definition load_index : cmd (gmap string toml) :=
  s <- get ;;
  match index s with
  | NoIndex => ret ∅
  | Unloadable => print WarnTomlLoad ;; ret ∅
  | Document data => ret data
  end.

(** Lines 139-144. *)
Definition merge_images (data : gmap string toml) (image_files : list string)
    : option (gmap string toml) :=
  let data := if bool_decide (is_Some (data !! "images")) then data
              else <["images" := TArray []]> data in
  append_images data image_files.

(** Lines 147-152. *)
Definition write_index (data : gmap string toml) : cmd unit :=
  try_except
    (match toml_write L data with
     | Written => modify (set_index (Document data))
     | OpenRaised => raise
     | DumpRaised rest => modify (set_index rest) ;; raise
     end ;;
     print UpdatedIndex)
    (print ErrTomlWrite).

Definition update_toml_index (image_files : list string) : cmd unit :=
  data <- load_index ;;
  data <- call (merge_images data image_files) ;;
  write_index data.

(** ** Admission pipeline (lines 155-224) *)

Inductive path_state :=
| Missing
| NotADirectory
| Directory (entries : gmap string node).

Record arguments := Arguments {
  source : path_state;
  photographer : option string;
  index_file : option string
}.

(** Truth value of an optional command-line string. *)
Definition given (a : option string) : bool :=
  match a with
  | Some (String _ _) => true
  | _ => false
  end.

(** [shutil.copy2(source_file, images_dir / new_name)].  The source is
    opened first, so a source that is no file raises before the destination
    is touched. *)
Definition copy2 (source_dir : gmap string node) (source_file new_name : string)
    : cmd unit :=
  match source_dir !! source_file with
  | Some (File c) =>
      if copy2_raises L source_file
      then in_images new_name (copy_interrupted (copy2_leaves L source_file))
      else in_images new_name (copy_onto c)
  | _ => raise
  end.

(** Lines 208-209. *)
Definition stamping (args : arguments) (image_file : string) : cmd unit :=
  if given (photographer args)
  then update_exif_artist image_file (default "" (photographer args))
  else ret tt.

(** One turn of the loop of lines 203-216; the local variables are
    [imported_files] and [current_num]. *)
Definition import_file (args : arguments) (source_dir : gmap string node)
    (locals : list string * N) (source_file : string) : cmd (list string * N) :=
  let imported_files := locals.1 in
  let current_num := locals.2 in
  let new_name := Name.serial_name current_num in
  copy2 source_dir source_file new_name ;;
  stamping args new_name ;;
  create_thumbnail source_dir source_file new_name 400 300 ;;
  print (Imported source_file new_name) ;;
  ret ((imported_files ++ [new_name])%list, current_num + 1).

(** Lines 200-216. *)
Definition import_files (args : arguments) (source_dir : gmap string node)
    (highest_num : N) (image_files : list string) : cmd (list string * N) :=
  for_each image_files ([], highest_num + 1) (import_file args source_dir).

(** Lines 218-224. *)
Definition conclude (args : arguments) (imported_files : list string) : cmd N :=
  (if given (index_file args)
   then update_toml_index imported_files
   else ret tt) ;;
  print (Success (length imported_files)) ;;
  ret 0.

(** C9 as the specification words it: a failed stamping leaves the file as
    the copy made it. *)
Definition failed_stamp_keeps_content (image_file photographer : string)
    (s : state) : Prop :=
  (stamp image_file photographer s).2 = None →
  let r := update_exif_artist image_file photographer s in
  r.2 = Some tt ∧ WarnExif image_file ∈ out r.1 ∧ images r.1 = images s.

(** What the index path holds after the write of lines 147-152. *)
Definition after_write (data : gmap string toml) (before : index_state)
    : index_state :=
  match toml_write L data with
  | Written => Document data
  | OpenRaised => before
  | DumpRaised rest => rest
  end.

(** The entries a document holds already. *)
Definition prior_images (data : gmap string toml) : list toml :=
  if data !! "images" is Some (TArray l) then l else [].

(** C5 as the specification words it, for one document and one list of names:
    the merge yields a document, with the prior entries first, then the new
    ones, and every other key as it was. *)
Definition merge_keeps_everything (data : gmap string toml)
    (image_files : list string) : Prop :=
  ∃ data',
    merge_images data image_files = Some data' ∧
    data' !! "images" =
      Some (TArray (prior_images data ++ (image_entry <$> image_files))) ∧
    ∀ k, k ≠ "images" → data' !! k = data !! k.

(** The pairs of a source name and a new name the run reports as imported,
    in the order of the report. *)
Definition imported_of (log : list event) : list (string * string) :=
  omap (λ e, if e is Imported f n then Some (f, n) else None) log.

(** The copy of a source file goes through. *)
Definition copy_succeeds (source_dir : gmap string node) (source_file : string)
    : bool :=
  match source_dir !! source_file with
  | Some (File _) => negb (copy2_raises L source_file)
  | _ => false
  end.

(** The names given to [n] files from serial number [first] on. *)
Definition serial_names (first : N) (n : nat) : list string :=
  (λ i, Name.serial_name (first + N.of_nat i)) <$> seq 0 n.

(** The entries of a directory, as the system lists them. *)
Definition listing (d : gmap string node) : list entry := map_to_list d.

(** [main], from line 172 on; the result is the exit status, and [None] an
    exception nothing catches.  The two destination directories exist by
    line 185. *)
Definition main (args : arguments) : cmd N :=
  match source args with
  | Missing => print ErrNoSource ;; ret 1
  | NotADirectory => print ErrSourceNotDir ;; ret 1
  | Directory source_dir =>
      s <- get ;;
      let highest_num := find_highest_serial_number (Some (listing (images s))) in
      print (FoundHighest highest_num) ;;
      let image_files := get_image_files (listing source_dir).*1 in
      match image_files with
      | [] => print NoJpegFound ;; ret 0
      | _ =>
          print (FoundFiles (length image_files)) ;;
          locals <- import_files args source_dir highest_num image_files ;;
          conclude args locals.1
      end
  end.

End Script.

(** C4 as the specification words it, for one name: the document at the
    index path lists the name, under the key ["file"], in the array of
    [key]. *)
Definition index_lists_under (key : string) (doc : index_state)
    (name : string) : Prop :=
  ∃ data l, doc = Document data ∧ data !! key = Some (TArray l) ∧
            image_entry name ∈ l.

(** ** The destination before the run (lines 167-185) *)

(** What a path holds: nothing, a file, or a directory with its entries. *)
Inductive place :=
| Absent
| Regular
| Folder (entries : gmap string node).

(** The destination path and, when it is a directory, what it holds under
    [images] and under [thumbs]. *)
Inductive destination :=
| NoDestination
| DestinationIsFile
| Destination (images_at thumbs_at : place).

(** [path.mkdir(exist_ok=True)]: the entries of the directory afterwards;
    raises ([None]) when the path holds a file. *)
Definition mkdir (p : place) : option (gmap string node) :=
  match p with
  | Absent => Some ∅
  | Regular => None
  | Folder d => Some d
  end.

Record outcome := Outcome {
  destination_after : destination;
  index_after : index_state;
  printed : list event;
  status : option N
}.

(** [main] with the set-up of lines 167-185 before it: the source is checked
    first, then the three directories are made, then the run goes on as
    [main] describes it. *)
Definition script (L : library) (args : arguments) (d : destination)
    (idx : index_state) : outcome :=
  match source args with
  | Missing => Outcome d idx [ErrNoSource] (Some 1)
  | NotADirectory => Outcome d idx [ErrSourceNotDir] (Some 1)
  | Directory _ =>
      match d with
      | DestinationIsFile => Outcome d idx [] None
      | _ =>
          let i := if d is Destination i _ then i else Absent in
          let t := if d is Destination _ t then t else Absent in
          match mkdir i with
          | None => Outcome d idx [] None
          | Some im =>
              match mkdir t with
              | None => Outcome (Destination (Folder im) t) idx [] None
              | Some th =>
                  let r := main L args (State im th idx []) in
                  Outcome (Destination (Folder (images r.1))
                                       (Folder (thumbs r.1)))
                          (index r.1) (out r.1) r.2
              end
          end
      end
  end.

(** ** Sample libraries and states, for the examples *)

Module Sample.

(** A library whose images are the file contents themselves; [unreadable]
    tells which contents [Image.open] rejects, [enc] is the encoder and [wr]
    the write of the index. *)
Definition lib (unreadable : content → bool)
    (enc : content → save_options → save_outcome)
    (wr : gmap string toml → write_outcome) : library :=
  {| image := content;
     exif_dict := content;
     copy2_raises := λ _, false;
     copy2_leaves := λ _, None;
     Image_open := λ c, if unreadable c then None else Some c;
     image_mode := λ _, "RGB";
     info_exif := λ _, "Exif";
     piexif_load := λ c, Some c;
     encode_utf8 := λ s, Some s;
     set_artist := λ d a, d +:+ a;
     piexif_dump := λ d, Some d;
     convert_RGB := λ im, Some im;
     thumbnail := λ _ im, Some im;
     encode := enc;
     toml_write := wr |}.

(** An encoder that always succeeds. *)
Definition encoded (im : content) (o : save_options) : save_outcome :=
  Saved (im +:+ default "" (exif o)).

(** Everything succeeds. *)
Definition plain : library := lib (λ _, false) encoded (λ _, Written).

(** The encoder raises after the target has been opened. *)
Definition broken_encoder : library :=
  lib (λ _, false) (λ _ _, RaisedWhileWriting "") (λ _, Written).

(** The disk is full when [b.jpeg] is copied: the copy raises with its
    destination created and nothing written. *)
Definition disk_full : library :=
  {| image := image plain;
     exif_dict := exif_dict plain;
     copy2_raises := λ f, bool_decide (f = "b.jpeg");
     copy2_leaves := λ _, Some "";
     Image_open := Image_open plain;
     image_mode := image_mode plain;
     info_exif := info_exif plain;
     piexif_load := piexif_load plain;
     encode_utf8 := encode_utf8 plain;
     set_artist := set_artist plain;
     piexif_dump := piexif_dump plain;
     convert_RGB := convert_RGB plain;
     thumbnail := thumbnail plain;
     encode := encode plain;
     toml_write := toml_write plain |}.


(** Contents starting with ["?"] are not images. *)
Definition picky : library :=
  lib (λ c, if c is String "?" _ then true else false) encoded (λ _, Written).

(** The source of the end-to-end scenario: two files. *)
Definition two_files : gmap string node :=
  {["a.jpg" := File "A"; "b.jpeg" := File "B"]}.

(** A source whose first file is not an image. *)
Definition one_broken : gmap string node :=
  {["a.jpg" := File "?"; "b.jpeg" := File "B"]}.

(** A run without a photographer, with an index path. *)
Definition indexed (source_dir : gmap string node) : arguments :=
  Arguments (Directory source_dir) None (Some "index.toml").

(** A run with a photographer and an index path. *)
Definition signed (source_dir : gmap string node) : arguments :=
  Arguments (Directory source_dir) (Some "Ann") (Some "index.toml").

(** An empty destination and no index yet. *)
Definition fresh : state := State ∅ ∅ NoIndex [].

(** An index with a title and one entry. *)
Definition titled : gmap string toml :=
  {["title" := TString "Lifjell Opp"; "images" := TArray [image_entry "LOP25-0001.jpeg"]]}.

(** An index whose ["images"] is not a list. *)
Definition odd : gmap string toml := {["images" := TString "none"]}.

(** A destination whose highest serial number is 9999. *)
Definition full : state :=
  State {["LOP25-9999.jpeg" := File "old"]} ∅ NoIndex [].

(** A source whose second file is a directory with the name of an image. *)
Definition folder_inside : gmap string node :=
  {["a.jpg" := File "A"; "b.jpeg" := Dir; "c.jpg" := File "C"]}.

(** A source without images. *)
Definition notes_only : gmap string node := {["notes.txt" := File "n"]}.

(** A destination that holds one image. *)
Definition one_image : state :=
  State {["LOP25-0001.jpeg" := File "pixels"]} ∅ NoIndex [].

End Sample.

(** * Properties *)

(** ** Names *)

Module NameFacts.
Import Name.

Lemma app_nil s : "" +:+ s = s.
Proof. reflexivity. Qed.
Lemma app_cons a s t : String a s +:+ t = String a (s +:+ t).
Proof. reflexivity. Qed.
Lemma app_assoc s t u : (s +:+ t) +:+ u = s +:+ (t +:+ u).
Proof. induction s; rewrite ?app_nil, ?app_cons; congruence. Qed.
Lemma app_length s t :
  String.length (s +:+ t) = (String.length s + String.length t)%nat.
Proof. induction s; rewrite ?app_nil, ?app_cons; simpl; congruence. Qed.

Ltac sapp := rewrite ?app_nil, ?app_cons in *.

Lemma literal_Some p s r : literal p s = Some r ↔ s = p +:+ r.
Proof.
  revert s. induction p as [|a p IH]; intros s; simpl; sapp.
  - split; congruence.
  - destruct s as [|b s]; [split; discriminate|].
    destruct (Ascii.eqb_spec a b) as [->|Hne].
    + rewrite IH. split; congruence.
    + split; [discriminate|]. intros [= -> _]. done.
Qed.

Lemma literal_mismatch a p b s :
  a ≠ b → literal (String a p) (String b s) = None.
Proof. intros. simpl. by destruct (Ascii.eqb_spec a b). Qed.

Lemma literal_app p r : literal p (p +:+ r) = Some r.
Proof. by apply literal_Some. Qed.

Lemma all_digits_cons a s :
  all_digits (String a s) ↔ is_digit a = true ∧ all_digits s.
Proof.
  unfold all_digits. simpl. split.
  - by inversion 1.
  - intros []. by constructor.
Qed.

Lemma all_digits_app s1 s2 :
  all_digits (s1 +:+ s2) ↔ all_digits s1 ∧ all_digits s2.
Proof.
  induction s1 as [|a s1 IH]; sapp.
  - unfold all_digits at 2. simpl. rewrite Forall_nil. tauto.
  - rewrite !all_digits_cons, IH. tauto.
Qed.

Lemma digits_app g r :
  all_digits g → digits (String.length g) (g +:+ r) = Some (g, r).
Proof.
  induction g as [|a g IH]; sapp; simpl; [done|].
  intros [-> Hg]%all_digits_cons. by rewrite IH.
Qed.

Lemma digits_Some n s g r :
  digits n s = Some (g, r) ↔
  s = g +:+ r ∧ String.length g = n ∧ all_digits g.
Proof.
  split.
  - revert s g. induction n as [|n IH]; intros s g; simpl.
    { destruct s; intros [= <- <-]; repeat split; constructor. }
    destruct s as [|a s]; [done|].
    destruct (is_digit a) eqn:Ha; [|done].
    destruct (digits n s) as [[g' r']|] eqn:Hd; [|done].
    intros [= <- <-]. apply IH in Hd as (-> & <- & Hg').
    by rewrite all_digits_cons, app_cons.
  - intros (-> & <- & Hg). by apply digits_app.
Qed.

(** *** Decimal numerals *)

Lemma int_from_app acc s t :
  int_from acc (s +:+ t) = int_from (int_from acc s) t.
Proof. revert acc. induction s; intros; sapp; simpl; auto. Qed.

Lemma pretty_N_char_digit d :
  d < 10 → is_digit (pretty_N_char d) = true ∧ digit_val (pretty_N_char d) = d.
Proof.
  intros Hd.
  assert (d = 0 ∨ d = 1 ∨ d = 2 ∨ d = 3 ∨ d = 4 ∨ d = 5 ∨ d = 6 ∨ d = 7
          ∨ d = 8 ∨ d = 9) as Hcases by lia.
  repeat (destruct Hcases as [->|Hcases]; [by compute|]). subst. by compute.
Qed.

Lemma pretty_N_go_app x s : pretty_N_go x s = pretty_N_go x "" +:+ s.
Proof.
  revert s. induction (N.lt_wf_0 x) as [x _ IH]; intros s.
  destruct (decide (x = 0)) as [->|Hx]; [by rewrite !pretty_N_go_0|].
  rewrite !(pretty_N_go_step x) by lia.
  assert (x `div` 10 < x) as Hlt by (apply N.div_lt; lia).
  rewrite (IH _ Hlt (String _ s)), (IH _ Hlt (String _ "")).
  by rewrite app_assoc.
Qed.

Lemma dec_0 : dec 0 = "".
Proof. done. Qed.
Lemma dec_step x :
  0 < x → dec x = dec (x `div` 10) +:+ String (pretty_N_char (x `mod` 10)) "".
Proof. intros. unfold dec. by rewrite pretty_N_go_step, pretty_N_go_app. Qed.

Lemma pretty_dec (x : N) : pretty x = if decide (x = 0) then "0" else dec x.
Proof. done. Qed.

Lemma dec_digits x : all_digits (dec x).
Proof.
  induction (N.lt_wf_0 x) as [x _ IH].
  destruct (decide (x = 0)) as [->|Hx]; [constructor|].
  rewrite dec_step by lia. apply all_digits_app. split.
  - apply IH, N.div_lt; lia.
  - apply all_digits_cons. split; [|constructor].
    apply pretty_N_char_digit, N.mod_lt. lia.
Qed.

Lemma int_dec x : int (dec x) = x.
Proof.
  induction (N.lt_wf_0 x) as [x _ IH].
  destruct (decide (x = 0)) as [->|Hx]; [done|].
  rewrite dec_step by lia. unfold int in *. rewrite int_from_app. simpl.
  rewrite IH by (apply N.div_lt; lia).
  destruct (pretty_N_char_digit (x `mod` 10)) as [_ ->]; [apply N.mod_lt; lia|].
  pose proof (N.div_mod x 10). lia.
Qed.

Lemma dec_length x k :
  (String.length (dec x) ≤ k)%nat ↔ x < 10 ^ N.of_nat k.
Proof.
  revert x. induction k as [|k IH]; intros x.
  - destruct (decide (x = 0)) as [->|Hx]; [simpl; split; [lia|done]|].
    rewrite dec_step, app_length by lia. simpl. split; lia.
  - replace (10 ^ N.of_nat (S k)) with (10 * 10 ^ N.of_nat k)
      by (rewrite Nat2N.inj_succ, N.pow_succ_r'; done).
    destruct (decide (x = 0)) as [->|Hx].
    { rewrite dec_0. simpl. split; [|lia]. intros _.
      pose proof (N.pow_nonzero 10 (N.of_nat k)). lia. }
    rewrite dec_step, app_length by lia. simpl.
    assert (x `div` 10 < 10 ^ N.of_nat k ↔ x < 10 * 10 ^ N.of_nat k) as <-.
    { split; intros.
      - pose proof (N.div_mod x 10). pose proof (N.mod_lt x 10). lia.
      - apply N.Div0.div_lt_upper_bound; lia. }
    rewrite <- IH. lia.
Qed.

Lemma pretty_digits (x : N) : all_digits (pretty x).
Proof.
  rewrite pretty_dec. case_decide; [|apply dec_digits].
  by repeat constructor.
Qed.

Lemma int_pretty (x : N) : int (pretty x) = x.
Proof. rewrite pretty_dec. case_decide; [by subst|apply int_dec]. Qed.

Lemma pretty_length (x : N) k :
  (1 ≤ k)%nat → (String.length (pretty x) ≤ k)%nat ↔ x < 10 ^ N.of_nat k.
Proof.
  intros Hk. rewrite pretty_dec. case_decide as Hx; [|apply dec_length].
  subst. simpl. split; [|lia]. intros _.
  pose proof (N.pow_nonzero 10 (N.of_nat k)). lia.
Qed.

(** *** The template *)

Lemma zeros_length n : String.length (zeros n) = n.
Proof. induction n; simpl; auto. Qed.
Lemma zeros_digits n : all_digits (zeros n).
Proof.
  induction n; [constructor|]. change (zeros (S n)) with (String "0" (zeros n)).
  by apply all_digits_cons.
Qed.
Lemma int_from_zeros n s : int_from 0 (zeros n +:+ s) = int_from 0 s.
Proof.
  induction n; [done|]. change (zeros (S n)) with (String "0" (zeros n)).
  by rewrite app_cons.
Qed.

Lemma fmt04_digits n : all_digits (fmt04 n).
Proof. apply all_digits_app. split; [apply zeros_digits|apply pretty_digits]. Qed.

Lemma int_fmt04 n : int (fmt04 n) = n.
Proof. unfold int, fmt04, zfill. fold (zeros (4 - String.length (pretty n))).
  rewrite int_from_zeros. apply int_pretty. Qed.

Lemma fmt04_length_small n : n < 10000 → String.length (fmt04 n) = 4%nat.
Proof.
  intros Hn. unfold fmt04, zfill. fold (zeros (4 - String.length (pretty n))).
  rewrite app_length, zeros_length.
  assert (String.length (pretty n) ≤ 4)%nat; [|lia].
  apply pretty_length; [lia|]. done.
Qed.

Lemma fmt04_length_large n : 10000 ≤ n → (4 < String.length (fmt04 n))%nat.
Proof.
  intros Hn. unfold fmt04, zfill. rewrite app_length.
  assert (¬ (String.length (pretty n) ≤ 4)%nat); [|lia].
  rewrite pretty_length by lia. change (10 ^ N.of_nat 4) with 10000. lia.
Qed.

Global Instance fmt04_inj : Inj (=) (=) fmt04.
Proof. intros m n Heq. by rewrite <- (int_fmt04 m), Heq, int_fmt04. Qed.

Lemma app_inj_r s t u : s +:+ u = t +:+ u → s = t.
Proof.
  revert t. induction s as [|a s IH]; intros [|b t]; sapp; intros Heq.
  - done.
  - apply (f_equal String.length) in Heq. simpl in Heq.
    rewrite app_length in Heq. lia.
  - apply (f_equal String.length) in Heq. simpl in Heq.
    rewrite app_length in Heq. lia.
  - injection Heq as -> Heq. f_equal. auto.
Qed.

Global Instance serial_name_inj : Inj (=) (=) serial_name.
Proof.
  intros m n Heq. unfold serial_name in Heq.
  apply (inj (String.app "LOP25-")) in Heq.
  by apply app_inj_r, (inj fmt04) in Heq.
Qed.

Lemma pattern_match_eq name r1 g r2 :
  literal "LOP25-" name = Some r1 → digits 4 r1 = Some (g, r2) →
  pattern_match name = (literal ".jpeg" r2 ≫= λ _, Some g).
Proof.
  intros H1 H2. unfold pattern_match, mbind, option_bind.
  rewrite H1. cbv beta iota. by rewrite H2.
Qed.

Lemma serial_of_serial_name_small n :
  n < 10000 → serial_of (serial_name n) = Some n.
Proof.
  intros Hn.
  assert (digits 4 (fmt04 n +:+ ".jpeg") = Some (fmt04 n, ".jpeg")) as Hd.
  { rewrite <- (fmt04_length_small n Hn). apply digits_app, fmt04_digits. }
  unfold serial_of, serial_name.
  rewrite (pattern_match_eq _ _ _ _ (literal_app _ _) Hd).
  simpl. by rewrite int_fmt04.
Qed.

Lemma serial_of_serial_name_large n :
  10000 ≤ n → serial_of (serial_name n) = None.
Proof.
  intros Hn. unfold serial_of, serial_name.
  pose proof (fmt04_length_large n Hn) as Hlen.
  pose proof (fmt04_digits n) as Hdig.
  destruct (fmt04 n) as [|a [|b [|c [|d [|e r]]]]]; simpl in Hlen; try lia.
  apply all_digits_cons in Hdig as [Ha Hdig].
  apply all_digits_cons in Hdig as [Hb Hdig].
  apply all_digits_cons in Hdig as [Hc Hdig].
  apply all_digits_cons in Hdig as [Hd Hdig].
  apply all_digits_cons in Hdig as [He Hdig].
  rewrite (pattern_match_eq _ _ (String a (String b (String c (String d ""))))
             (String e r +:+ ".jpeg") (literal_app _ _)).
  - sapp. rewrite literal_mismatch; [done|]. intros <-. by compute in He.
  - sapp. simpl. by rewrite Ha, Hb, Hc, Hd.
Qed.

End NameFacts.

(** ** Identifier allocator *)

Section Allocator.

Lemma scan_step_serial max_num (e : entry) :
  scan_step max_num e =
  match (if is_file e.2 then Name.serial_of e.1 else None) with
  | Some n => N.max max_num n
  | None => max_num
  end.
Proof.
  unfold scan_step, Name.serial_of.
  destruct (is_file e.2); [|done]. by destruct (Name.pattern_match e.1).
Qed.

Lemma scan_fold listing max_num :
  fold_left scan_step listing max_num =
  N.max max_num (foldr N.max 0 (serials listing)).
Proof.
  revert max_num. induction listing as [|e listing IH]; intros max_num.
  - simpl. lia.
  - simpl fold_left. rewrite IH, scan_step_serial. unfold serials.
    cbn [omap list_omap].
    destruct (if is_file e.2 then Name.serial_of e.1 else None);
      cbn [foldr]; lia.
Qed.

Lemma greatest_foldr ns : greatest (foldr N.max 0 ns) ns.
Proof.
  induction ns as [|n ns [IHle IHin]]; simpl.
  - split; [by intros ? ?%elem_of_nil|by right].
  - split.
    + intros k [->|Hk]%elem_of_cons; [lia|]. specialize (IHle k Hk). lia.
    + destruct (N.max_spec n (foldr N.max 0 ns)) as [[? ->]|[? ->]].
      * destruct IHin as [?|Heq]; [left; by right|]. rewrite Heq in *.
        assert (n = 0) as -> by lia. left. by left.
      * left. by left.
Qed.

Lemma greatest_unique m1 m2 ns : greatest m1 ns → greatest m2 ns → m1 = m2.
Proof.
  intros [Hle1 Hin1] [Hle2 Hin2].
  assert (m1 ≤ m2) by (destruct Hin1 as [?| ->]; [auto|lia]).
  assert (m2 ≤ m1) by (destruct Hin2 as [?| ->]; [auto|lia]).
  lia.
Qed.

(** What the scan returns on an existing directory: the greatest serial
    number among the files whose name the pattern matches at its start. *)
Lemma find_highest_greatest listing :
  greatest (find_highest_serial_number (Some listing)) (serials listing).
Proof.
  unfold find_highest_serial_number. rewrite scan_fold, N.max_0_l.
  apply greatest_foldr.
Qed.

Lemma find_highest_absent : find_highest_serial_number None = 0.
Proof. done. Qed.

Lemma find_highest_no_match listing :
  serials listing = [] → find_highest_serial_number (Some listing) = 0.
Proof.
  intros Hs. destruct (find_highest_greatest listing) as [_ [Hin|?]]; [|done].
  rewrite Hs in Hin. by apply elem_of_nil in Hin.
Qed.

(** The order in which [iterdir] yields the entries does not matter. *)
Lemma find_highest_permutation l1 l2 :
  l1 ≡ₚ l2 →
  find_highest_serial_number (Some l1) = find_highest_serial_number (Some l2).
Proof.
  intros Hp. eapply greatest_unique; [apply find_highest_greatest|].
  destruct (find_highest_greatest l2) as [Hle Hin].
  assert (serials l1 ≡ₚ serials l2) as Hs by (unfold serials; by rewrite Hp).
  split.
  - intros n Hn. apply Hle. by rewrite <- Hs.
  - destruct Hin as [Hin|?]; [left|by right]. by rewrite Hs.
Qed.

Lemma is_digit_val a : Name.is_digit a = true → Name.digit_val a < 10.
Proof.
  unfold Name.is_digit, Name.digit_val.
  intros [?%N.leb_le ?%N.leb_le]%andb_true_iff. lia.
Qed.

(** A serial number read off a name has four digits. *)
Lemma serial_of_bound name n : Name.serial_of name = Some n → n < 10000.
Proof.
  unfold Name.serial_of, Name.pattern_match. intros Hn.
  destruct (Name.literal "LOP25-" name) as [r1|]; [|done].
  cbn [mbind option_bind] in Hn.
  destruct (Name.digits 4 r1) as [[g r2]|] eqn:Hd; [|done].
  cbn [mbind option_bind] in Hn.
  destruct (Name.literal ".jpeg" r2); [|done].
  injection Hn as <-.
  apply NameFacts.digits_Some in Hd as (_ & Hlen & Hg).
  destruct g as [|a [|b [|c [|d [|e g]]]]]; simplify_eq/=.
  apply NameFacts.all_digits_cons in Hg as [Ha Hg].
  apply NameFacts.all_digits_cons in Hg as [Hb Hg].
  apply NameFacts.all_digits_cons in Hg as [Hc Hg].
  apply NameFacts.all_digits_cons in Hg as [Hd _].
  apply is_digit_val in Ha, Hb, Hc, Hd.
  unfold Name.int. cbn [Name.int_from]. lia.
Qed.

Lemma find_highest_bound dest_dir :
  find_highest_serial_number dest_dir < 10000.
Proof.
  destruct dest_dir as [listing|]; [|done].
  destruct (find_highest_greatest listing) as [_ [Hin| ->]]; [|done].
  unfold serials in Hin. apply list_elem_of_omap in Hin as (e & _ & He).
  destruct (is_file e.2); [|done]. by eapply serial_of_bound.
Qed.

(** On names with nothing after the extension the pattern of the script and
    the pattern of the specification agree. *)
Lemma exact_serial_pattern_match name g :
  Name.exact_serial name = Some g → Name.pattern_match name = Some g.
Proof.
  unfold Name.exact_serial, Name.pattern_match.
  destruct (Name.literal "LOP25-" name) as [r1|]; [|done].
  cbn [mbind option_bind].
  destruct (Name.digits 4 r1) as [[g' r2]|]; [|done].
  cbn [mbind option_bind].
  destruct (String.eqb_spec r2 ".jpeg") as [->|]; [|done]. by intros [= ->].
Qed.

Lemma find_highest_refines_spec listing :
  (∀ e g, e ∈ listing → Name.pattern_match e.1 = Some g →
          Name.exact_serial e.1 = Some g) →
  find_highest_serial_number (Some listing) =
  spec_highest_serial_number (Some listing).
Proof.
  unfold find_highest_serial_number, spec_highest_serial_number.
  generalize 0. induction listing as [|e listing IH]; intros a Hclean; [done|].
  simpl. rewrite <- IH by (intros; apply Hclean; [by right|done]).
  f_equal. unfold scan_step, spec_scan_step.
  destruct (is_file e.2); [|done].
  destruct (Name.pattern_match e.1) as [g|] eqn:Hg.
  - by rewrite (Hclean e g) by (done || by left).
  - destruct (Name.exact_serial e.1) as [g|] eqn:Hg'; [|done].
    apply exact_serial_pattern_match in Hg'. congruence.
Qed.

End Allocator.

(** ** Source enumerator *)

Section Enumerator.

Lemma ends_with_refl s : ends_with s s = true.
Proof. destruct s; cbn [ends_with]; by rewrite String.eqb_refl. Qed.

Lemma ends_with_cons p c n :
  ends_with p (String c n) = String.eqb (String c n) p || ends_with p n.
Proof. cbn [ends_with]. by destruct (String.eqb _ _). Qed.

(** Two suffixes of one name: one is a suffix of the other. *)
Lemma ends_with_two p q n :
  ends_with p n = true → ends_with q n = true →
  ends_with p q = true ∨ ends_with q p = true.
Proof.
  induction n as [|c n IH].
  - cbn [ends_with].
    destruct (String.eqb_spec "" p) as [<-|]; [|done].
    destruct (String.eqb_spec "" q) as [<-|]; [|done]. by left.
  - rewrite !ends_with_cons.
    destruct (String.eqb_spec (String c n) p) as [<-|_].
    { intros _ Hq. right. by rewrite ends_with_cons. }
    destruct (String.eqb_spec (String c n) q) as [<-|_].
    { intros Hp _. left. rewrite ends_with_cons. cbn [orb] in Hp.
      by rewrite Hp, orb_true_r. }
    simpl. auto.
Qed.

(** A name carries at most one of the four extensions. *)
Lemma patterns_exclusive p q n :
  p ∈ patterns → q ∈ patterns →
  ends_with p n = true → ends_with q n = true → p = q.
Proof.
  intros Hp Hq Hpn Hqn.
  destruct (ends_with_two p q n Hpn Hqn) as [H|H]; revert H;
    unfold patterns in *;
    repeat (apply elem_of_cons in Hp as [->|Hp]; [|]);
    try (by apply elem_of_nil in Hp);
    repeat (apply elem_of_cons in Hq as [->|Hq]; [|]);
    try (by apply elem_of_nil in Hq);
    (done || by vm_compute).
Qed.

Lemma glob_cons p n names :
  glob p (n :: names) =
  if ends_with p n then n :: glob p names else glob p names.
Proof.
  unfold glob. rewrite filter_cons.
  destruct (ends_with p n); by case_decide.
Qed.

Lemma globs_permutation names :
  (glob ".jpeg" names ++ glob ".jpg" names ++ glob ".JPEG" names
     ++ glob ".JPG" names)%list
  ≡ₚ filter (λ n, accepted n = true) names.
Proof.
  induction names as [|n names IH]; [done|].
  rewrite !glob_cons, filter_cons.
  assert (∀ p q, p ∈ patterns → q ∈ patterns → p ≠ q →
            ends_with p n = true → ends_with q n = true → False) as Hex.
  { intros p q ?? Hne ??. apply Hne. by eapply patterns_exclusive. }
  assert (∀ p, p ∈ patterns ↔
               p = ".jpeg" ∨ p = ".jpg" ∨ p = ".JPEG" ∨ p = ".JPG") as Hin.
  { intros p. unfold patterns. rewrite !elem_of_cons, elem_of_nil. tauto. }
  destruct (decide (accepted n = true)) as [Ha|Ha];
    unfold accepted in Ha; cbn [existsb patterns] in Ha;
    destruct (ends_with ".jpeg" n) eqn:E1, (ends_with ".jpg" n) eqn:E2,
      (ends_with ".JPEG" n) eqn:E3, (ends_with ".JPG" n) eqn:E4;
    try done;
    try (exfalso;
         first [ by apply (Hex ".jpeg" ".jpg"); rewrite ?Hin; auto
               | by apply (Hex ".jpeg" ".JPEG"); rewrite ?Hin; auto
               | by apply (Hex ".jpeg" ".JPG"); rewrite ?Hin; auto
               | by apply (Hex ".jpg" ".JPEG"); rewrite ?Hin; auto
               | by apply (Hex ".jpg" ".JPG"); rewrite ?Hin; auto
               | by apply (Hex ".JPEG" ".JPG"); rewrite ?Hin; auto ]);
    rewrite <- IH; cbn [app]; by rewrite <- ?Permutation_middle.
Qed.

Lemma get_image_files_unfold names :
  get_image_files names =
  sorted (glob ".jpeg" names ++ glob ".jpg" names ++ glob ".JPEG" names
            ++ glob ".JPG" names)%list.
Proof.
  unfold get_image_files, patterns. cbn [fold_left].
  by rewrite app_nil_l, <- !(assoc_L (++)%list).
Qed.

Lemma get_image_files_permutation names :
  get_image_files names ≡ₚ filter (λ n, accepted n = true) names.
Proof.
  rewrite get_image_files_unfold. unfold sorted.
  by rewrite merge_sort_Permutation, globs_permutation.
Qed.

Lemma get_image_files_sorted names : Sorted String.le (get_image_files names).
Proof. apply (Sorted_merge_sort String.le). Qed.

Lemma get_image_files_deterministic names names' :
  names' ≡ₚ names → get_image_files names' = get_image_files names.
Proof.
  intros Hp. apply (Sorted_unique String.le);
    try apply get_image_files_sorted.
  by rewrite !get_image_files_permutation, Hp.
Qed.

Lemma get_image_files_elem_of names n :
  n ∈ get_image_files names ↔ n ∈ names ∧ accepted n = true.
Proof. by rewrite get_image_files_permutation, list_elem_of_filter, (comm (∧)). Qed.

Lemma get_image_files_NoDup names :
  NoDup names → NoDup (get_image_files names).
Proof.
  intros Hnd. rewrite get_image_files_permutation. by apply NoDup_filter.
Qed.

End Enumerator.

(** ** Commands on one name *)

Section Local.

Lemma state_eq s1 s2 :
  images s1 = images s2 → thumbs s1 = thumbs s2 → index s1 = index s2 →
  out s1 = out s2 → s1 = s2.
Proof. destruct s1, s2; simpl; by intros -> -> -> ->. Qed.

Lemma put_put name i1 t1 ev1 i2 t2 ev2 s :
  put name i2 t2 ev2 (put name i1 t1 ev1 s) = put name i2 t2 (ev1 ++ ev2) s.
Proof.
  apply state_eq; simpl; try done.
  - by rewrite partial_alter_partial_alter_eq.
  - by rewrite partial_alter_partial_alter_eq.
  - by rewrite (assoc_L (++)).
Qed.

Lemma put_self name s :
  put name (images s !! name) (thumbs s !! name) [] s = s.
Proof.
  apply state_eq; simpl; try done; try apply partial_alter_self.
  apply app_nil_r.
Qed.

Lemma put_images name i t ev s : images (put name i t ev s) !! name = i.
Proof. simpl. apply lookup_partial_alter_eq. Qed.
Lemma put_thumbs name i t ev s : thumbs (put name i t ev s) !! name = t.
Proof. simpl. apply lookup_partial_alter_eq. Qed.
Lemma put_images_ne name i t ev s n :
  n ≠ name → images (put name i t ev s) !! n = images s !! n.
Proof. intros. simpl. by apply lookup_partial_alter_ne. Qed.
Lemma put_thumbs_ne name i t ev s n :
  n ≠ name → thumbs (put name i t ev s) !! n = thumbs s !! n.
Proof. intros. simpl. by apply lookup_partial_alter_ne. Qed.

Context {A B : Type} (name : string).

Lemma local_ret (a : A) : local name (ret a).
Proof.
  exists (λ i t, (i, t, [], Some a)). intros s. simpl.
  by rewrite put_self.
Qed.

Lemma local_call (r : option A) : local name (call r).
Proof.
  exists (λ i t, (i, t, [], r)). intros s. simpl. by rewrite put_self.
Qed.

Lemma local_raise : local name (@raise A).
Proof. apply (local_call None). Qed.

Lemma local_bind (c : cmd A) (k : A → cmd B) :
  local name c → (∀ a, local name (k a)) → local name (bind c k).
Proof.
  intros [F HF] Hk.
  exists (λ i t,
    let r := F i t in
    match r.2 with
    | Some a => let r' := proj1_sig (Hk a) r.1.1.1 r.1.1.2 in
                (r'.1.1.1, r'.1.1.2, r.1.2 ++ r'.1.2, r'.2)
    | None => (r.1.1.1, r.1.1.2, r.1.2, None)
    end).
  intros s. unfold bind. rewrite HF. simpl.
  destruct (F (images s !! name) (thumbs s !! name)) as [[[i t] ev] [a|]];
    simpl; [|done].
  rewrite (proj2_sig (Hk a)). simpl.
  rewrite !lookup_partial_alter_eq. by rewrite put_put.
Qed.

Lemma local_try_except (c h : cmd A) :
  local name c → local name h → local name (try_except c h).
Proof.
  intros [F HF] [G HG].
  exists (λ i t,
    let r := F i t in
    match r.2 with
    | Some a => r
    | None => let r' := G r.1.1.1 r.1.1.2 in
              (r'.1.1.1, r'.1.1.2, r.1.2 ++ r'.1.2, r'.2)
    end).
  intros s. unfold try_except. rewrite HF. simpl.
  destruct (F (images s !! name) (thumbs s !! name)) as [[[i t] ev] [a|]];
    simpl; [done|].
  rewrite HG. simpl. rewrite !lookup_partial_alter_eq. by rewrite put_put.
Qed.

Lemma local_print e : local name (print e).
Proof.
  exists (λ i t, (i, t, [e], Some tt)). intros s.
  unfold print, modify. simpl. f_equal.
  apply state_eq; simpl; by rewrite ?partial_alter_self.
Qed.

Lemma local_in_images (op : option node → option node * option A) :
  local name (in_images name op).
Proof.
  exists (λ i t, ((op i).1, t, [], (op i).2)). intros s.
  unfold in_images. simpl. f_equal.
  apply state_eq; simpl; by rewrite ?partial_alter_self, ?app_nil_r.
Qed.

Lemma local_in_thumbs (op : option node → option node * option A) :
  local name (in_thumbs name op).
Proof.
  exists (λ i t, (i, (op t).1, [], (op t).2)). intros s.
  unfold in_thumbs. simpl. f_equal.
  apply state_eq; simpl; by rewrite ?partial_alter_self, ?app_nil_r.
Qed.

Lemma local_if (b : bool) (c1 c2 : cmd A) :
  local name c1 → local name c2 → local name (if b then c1 else c2).
Proof. by destruct b. Qed.

End Local.

(** ** Running commands *)

Section Run.

Context {A B : Type}.

Lemma bind_run (c : cmd A) (k : A → cmd B) s a :
  (c s).2 = Some a → bind c k s = k a (c s).1.
Proof. unfold bind. destruct (c s) as [s' r]. by intros [= ->]. Qed.

Lemma bind_raise (c : cmd A) (k : A → cmd B) s :
  (c s).2 = None → bind c k s = ((c s).1, None).
Proof. unfold bind. destruct (c s) as [s' r]. by intros [= ->]. Qed.

Lemma try_except_run (c h : cmd A) s a :
  (c s).2 = Some a → try_except c h s = c s.
Proof. unfold try_except. destruct (c s) as [s' r]. by intros [= ->]. Qed.

Lemma try_except_raise (c h : cmd A) s :
  (c s).2 = None → try_except c h s = h (c s).1.
Proof. unfold try_except. destruct (c s) as [s' r]. by intros [= ->]. Qed.

(** A handler that only prints makes the statement total. *)
Lemma try_except_print (c : cmd unit) e s :
  (try_except c (print e) s).2 = Some tt.
Proof. unfold try_except. by destruct (c s) as [s' [[]|]]. Qed.

Lemma try_except_print_state (c : cmd unit) e s :
  (try_except c (print e) s).1 =
  if (c s).2 is Some _ then (c s).1 else add_out e (c s).1.
Proof. unfold try_except. by destruct (c s) as [s' [[]|]]. Qed.

(** What a command on one name leaves alone, and what it depends on. *)
Lemma local_frame name (c : cmd A) s n :
  local name c → n ≠ name →
  images (c s).1 !! n = images s !! n ∧ thumbs (c s).1 !! n = thumbs s !! n.
Proof.
  intros [F HF] Hn. rewrite HF. simpl.
  by rewrite !lookup_partial_alter_ne.
Qed.

Lemma local_index name (c : cmd A) s : local name c → index (c s).1 = index s.
Proof. intros [F HF]. by rewrite HF. Qed.

Lemma local_out name (c : cmd A) s :
  local name c → out s `prefix_of` out (c s).1.
Proof. intros [F HF]. rewrite HF. simpl. by eexists. Qed.

Lemma local_agree name (c : cmd A) s1 s2 :
  local name c →
  images s1 !! name = images s2 !! name →
  thumbs s1 !! name = thumbs s2 !! name →
  (c s1).2 = (c s2).2 ∧
  images (c s1).1 !! name = images (c s2).1 !! name ∧
  thumbs (c s1).1 !! name = thumbs (c s2).1 !! name ∧
  ∃ ev, out (c s1).1 = out s1 ++ ev ∧ out (c s2).1 = out s2 ++ ev.
Proof.
  intros [F HF] Hi Ht. rewrite !HF, Hi, Ht. simpl.
  rewrite !lookup_partial_alter_eq. repeat split; eauto.
Qed.

End Run.

(** ** One turn of the loop *)

Section Turn.

Variable L : library.
Variable args : arguments.
Variable source_dir : gmap string node.

Create HintDb local.
Local Hint Resolve local_ret local_call local_raise local_print
  local_in_images local_in_thumbs : local.

Ltac solve_local :=
  repeat first
    [ apply local_bind; [|intros ?]
    | apply local_try_except
    | apply local_if
    | solve [auto with local] ].

Lemma local_stamp name p : local name (stamp L name p).
Proof. unfold stamp. solve_local. Qed.

Lemma local_update_exif_artist name p :
  local name (update_exif_artist L name p).
Proof. unfold update_exif_artist. auto using local_try_except, local_stamp, local_print. Qed.

Lemma local_derive f name w h : local name (derive L source_dir f name w h).
Proof. unfold derive. solve_local. Qed.

Lemma local_create_thumbnail f name w h :
  local name (create_thumbnail L source_dir f name w h).
Proof. unfold create_thumbnail. auto using local_try_except, local_derive, local_print. Qed.

Lemma local_copy2 f name : local name (copy2 L source_dir f name).
Proof. unfold copy2. repeat case_match; auto with local. Qed.

Lemma local_import_file locals f :
  local (Name.serial_name locals.2) (import_file L args source_dir locals f).
Proof.
  unfold import_file, stamping. cbv zeta.
  repeat first
    [ apply local_bind; [|intros ?]
    | apply local_if
    | apply local_copy2 | apply local_update_exif_artist
    | apply local_create_thumbnail
    | solve [auto with local] ].
Qed.

(** *** The two [try] blocks, step by step *)

Lemma in_images_read {A} name (f : option node → option A) s :
  in_images name (λ e, (e, f e)) s = (s, f (images s !! name)).
Proof.
  unfold in_images. simpl. f_equal.
  apply state_eq; simpl; by rewrite ?partial_alter_self.
Qed.

Lemma call_run {A} (r : option A) s : call r s = (s, r).
Proof. done. Qed.

Lemma stamp_unfold name p s :
  stamp L name p s =
  match open_image L (images s !! name) with
  | None => (s, None)
  | Some im =>
      match piexif_load L (info_exif L im) with
      | None => (s, None)
      | Some exif_dict =>
          match encode_utf8 L p with
          | None => (s, None)
          | Some artist =>
              match piexif_dump L (set_artist L exif_dict artist) with
              | None => (s, None)
              | Some exif_bytes =>
                  in_images name
                    (Image_save (encode L im
                       (SaveOptions None None false (Some exif_bytes)))) s
              end
          end
      end
  end.
Proof.
  unfold stamp, bind. rewrite in_images_read.
  destruct (open_image L (images s !! name)) as [im|]; [|done].
  rewrite call_run. destruct (piexif_load L (info_exif L im)); [|done].
  rewrite call_run. destruct (encode_utf8 L p); [|done].
  rewrite call_run. by destruct (piexif_dump L _).
Qed.

Lemma derive_unfold f name w h s :
  derive L source_dir f name w h s =
  match open_image L (source_dir !! f) with
  | None => (s, None)
  | Some im =>
      match (if bool_decide (image_mode L im ∈ ["RGBA"; "P"])
             then convert_RGB L im else Some im) with
      | None => (s, None)
      | Some im =>
          match thumbnail L (w, h) im with
          | None => (s, None)
          | Some im =>
              in_thumbs name
                (Image_save (encode L im
                   (SaveOptions (Some "JPEG") (Some 85) true None))) s
          end
      end
  end.
Proof.
  unfold derive, bind. rewrite call_run.
  destruct (open_image L (source_dir !! f)) as [im|]; [|done].
  destruct (bool_decide (image_mode L im ∈ ["RGBA"; "P"])).
  - rewrite call_run. destruct (convert_RGB L im); [|done].
    rewrite call_run. by destruct (thumbnail L _ _).
  - unfold ret at 1. rewrite call_run. by destruct (thumbnail L _ _).
Qed.

(** What a save leaves under its path. *)
Lemma Image_save_is_Some o e : is_Some e → is_Some (Image_save o e).1.
Proof. intros [[c|] ->]; destruct o as [c'| |w]; simpl; eauto. Qed.

Lemma Image_save_raised o e :
  (Image_save o e).2 = None →
  (Image_save o e).1 = e ∨
  ∃ c w, e = Some (File c) ∧ o = RaisedWhileWriting w ∧
         (Image_save o e).1 = Some (File w).
Proof.
  destruct o as [c'| |w], e as [[c|]|]; simpl; intros; try done;
    naive_solver.
Qed.

Lemma Image_save_created o e :
  (Image_save o e).2 = None → e = None → (Image_save o e).1 = None.
Proof. intros Hr ->. by destruct o. Qed.

Lemma Image_save_saved o e :
  (Image_save o e).2 = Some tt → ∃ c, o = Saved c ∧ (Image_save o e).1 = Some (File c).
Proof.
  destruct o as [c'| |w], e as [[c|]|]; simpl; intros; try done; eauto.
Qed.

End Turn.

(** ** Metadata stamper *)

Section Stamper.

Variable L : library.

Lemma update_exif_artist_returns image_file p s :
  (update_exif_artist L image_file p s).2 = Some tt.
Proof. apply try_except_print. Qed.

Lemma stamp_frame image_file p s :
  thumbs (stamp L image_file p s).1 = thumbs s ∧
  index (stamp L image_file p s).1 = index s ∧
  out (stamp L image_file p s).1 = out s.
Proof. rewrite stamp_unfold. by repeat case_match. Qed.

(** What a failed stamping leaves of the images. *)
Lemma stamp_raised image_file p s :
  (stamp L image_file p s).2 = None →
  images (stamp L image_file p s).1 =
  match stamp_save L image_file p s with
  | Some (RaisedWhileWriting w) => <[image_file := File w]> (images s)
  | _ => images s
  end.
Proof.
  rewrite stamp_unfold. unfold stamp_save, mbind, option_bind.
  destruct (open_image L _) as [im|] eqn:Hopen; [|done].
  destruct (piexif_load L _) as [exif_dict|]; [|done].
  destruct (encode_utf8 L p) as [artist|]; [|done].
  destruct (piexif_dump L _) as [exif_bytes|]; [|done].
  destruct (images s !! image_file) as [[c|]|] eqn:He; try done.
  unfold in_images. rewrite He. cbn [fst snd images set_images].
  destruct (encode L im _) as [c'| |w]; cbn [Image_save fst snd]; try done.
  intros _. rewrite <- He. apply partial_alter_self.
Qed.

End Stamper.

(** C9, as the code has it.  A failure of the stamper is caught where it
    occurs and reported by a warning that names the file; the thumbnails and
    the index are not touched.  When the error comes from opening the image,
    from reading or encoding its EXIF block, or from [save] before it has
    opened the file, the images directory is as before: the file keeps the
    content the copy gave it.  When the encoder of this very save raises
    after [save] has opened the file, the file holds what had been written by
    then, and every other image is as before. *)
Theorem stamper_failure_contained L image_file photographer s :
  (stamp L image_file photographer s).2 = None →
  let r := update_exif_artist L image_file photographer s in
  r.2 = Some tt ∧
  out r.1 = out s ++ [WarnExif image_file] ∧
  thumbs r.1 = thumbs s ∧ index r.1 = index s ∧
  images r.1 =
    match stamp_save L image_file photographer s with
    | Some (RaisedWhileWriting written) =>
        <[image_file := File written]> (images s)
    | _ => images s
    end.
Proof.
  intros Hr. cbv zeta. unfold update_exif_artist.
  rewrite try_except_raise by done.
  destruct (stamp_frame L image_file photographer s) as (Ht & Hi & Ho).
  unfold print, modify. cbn [fst snd add_out images thumbs index out].
  rewrite Ht, Hi, Ho. repeat split; try done.
  by apply stamp_raised.
Qed.

Lemma stamper_failure_contained_witness :
  (stamp Sample.broken_encoder "LOP25-0001.jpeg" "Ann" Sample.one_image).2
    = None ∧
  let r := update_exif_artist Sample.broken_encoder "LOP25-0001.jpeg" "Ann"
             Sample.one_image in
  r.2 = Some tt ∧
  out r.1 = out Sample.one_image ++ [WarnExif "LOP25-0001.jpeg"] ∧
  thumbs r.1 = thumbs Sample.one_image ∧ index r.1 = index Sample.one_image ∧
  images r.1 = <["LOP25-0001.jpeg" := File ""]> (images Sample.one_image).
Proof.
  split; [reflexivity|].
  apply (stamper_failure_contained Sample.broken_encoder "LOP25-0001.jpeg"
           "Ann" Sample.one_image).
  reflexivity.
Defined.

(** C9 as it is worded fails: when the encoder raises while [save] is
    writing, the copied file is left empty. *)
Lemma failed_stamp_loses_content :
  ¬ failed_stamp_keeps_content Sample.broken_encoder "LOP25-0001.jpeg" "Ann"
      Sample.one_image.
Proof.
  intros H. destruct H as (_ & _ & Heq); [reflexivity|].
  apply (f_equal (λ d : gmap string node, d !! "LOP25-0001.jpeg")) in Heq.
  vm_compute in Heq. discriminate.
Qed.

(** ** The admission of one file *)

Section Admission.

Variable L : library.
Variable args : arguments.
Variable source_dir : gmap string node.

Lemma copy_succeeds_inv f :
  copy_succeeds L source_dir f = true →
  ∃ c, source_dir !! f = Some (File c) ∧ copy2_raises L f = false.
Proof.
  unfold copy_succeeds. destruct (source_dir !! f) as [[c|]|]; try done.
  intros ?%negb_true_iff. eauto.
Qed.

Lemma copy2_run f name s :
  copy_succeeds L source_dir f = true →
  ∃ c, source_dir !! f = Some (File c) ∧
       copy2 L source_dir f name s = in_images name (copy_onto c) s.
Proof.
  intros (c & Hc & Hr)%copy_succeeds_inv. exists c. split; [done|].
  unfold copy2. by rewrite Hc, Hr.
Qed.

Lemma copy_interrupted_raises w e : (copy_interrupted w e).2 = None.
Proof. by destruct w, e as [[]|]. Qed.

Lemma copy2_raises_state f name s :
  copy_succeeds L source_dir f = false →
  (copy2 L source_dir f name s).2 = None.
Proof.
  unfold copy_succeeds, copy2.
  destruct (source_dir !! f) as [[c|]|]; try done.
  intros ->%negb_false_iff. apply copy_interrupted_raises.
Qed.

Lemma copy_onto_returns c e : (copy_onto c e).2 = Some tt.
Proof. by destruct e as [[]|]. Qed.

Lemma stamping_returns name s : (stamping L args name s).2 = Some tt.
Proof.
  unfold stamping. destruct (given _); [|done].
  apply update_exif_artist_returns.
Qed.

(** A turn whose copy goes through runs to its end. *)
Lemma import_file_run locals f s :
  copy_succeeds L source_dir f = true →
  let name := Name.serial_name locals.2 in
  let s1 := (copy2 L source_dir f name s).1 in
  let s2 := (stamping L args name s1).1 in
  let s3 := (create_thumbnail L source_dir f name 400 300 s2).1 in
  import_file L args source_dir locals f s =
  (add_out (Imported f name) s3, Some (locals.1 ++ [name], locals.2 + 1)).
Proof.
  intros Hc. cbv zeta. unfold import_file. cbv zeta.
  destruct (copy2_run f (Name.serial_name locals.2) s Hc) as (c & _ & Hcopy).
  rewrite (bind_run _ _ _ tt) by (rewrite Hcopy; apply copy_onto_returns).
  rewrite (bind_run _ _ _ tt) by apply stamping_returns.
  rewrite (bind_run _ _ _ tt) by apply try_except_print.
  done.
Qed.

(** A turn whose copy raises stops there, and so does the run. *)
Lemma import_file_raises locals f s :
  copy_succeeds L source_dir f = false →
  import_file L args source_dir locals f s =
  ((copy2 L source_dir f (Name.serial_name locals.2) s).1, None).
Proof.
  intros Hc. unfold import_file. cbv zeta.
  by rewrite bind_raise by (by apply copy2_raises_state).
Qed.

Lemma import_file_state locals f s :
  (import_file L args source_dir locals f s).1 =
  (import_file L args source_dir ([], locals.2) f s).1.
Proof.
  destruct (copy_succeeds L source_dir f) eqn:Hc.
  - by rewrite !import_file_run.
  - by rewrite !import_file_raises.
Qed.

Lemma import_file_returns locals f s :
  copy_succeeds L source_dir f = true →
  (import_file L args source_dir locals f s).2 =
  Some (locals.1 ++ [Name.serial_name locals.2], locals.2 + 1).
Proof. intros Hc. by rewrite import_file_run. Qed.

(** *** The whole loop *)

Lemma serial_names_S first n :
  serial_names first (S n) =
  Name.serial_name first :: serial_names (first + 1) n.
Proof.
  unfold serial_names. cbn [seq fmap list_fmap]. rewrite N.add_0_r. f_equal.
  rewrite <- fmap_S_seq, <- list_fmap_compose. apply list_fmap_ext.
  intros _ i _. simpl. f_equal. lia.
Qed.

Lemma serial_names_length first n : length (serial_names first n) = n.
Proof. unfold serial_names. by rewrite length_fmap, length_seq. Qed.

Lemma serial_names_lookup first n i :
  (i < n)%nat →
  serial_names first n !! i = Some (Name.serial_name (first + N.of_nat i)).
Proof.
  intros Hi. unfold serial_names.
  by rewrite list_lookup_fmap, lookup_seq_lt.
Qed.

Lemma serial_name_ne m n : m ≠ n → Name.serial_name m ≠ Name.serial_name n.
Proof. intros Hne Heq. by apply Hne, (inj Name.serial_name). Qed.

Lemma import_files_spec items imp cur s :
  Forall (λ f, copy_succeeds L source_dir f = true) items →
  let r := for_each items (imp, cur) (import_file L args source_dir) s in
  r.2 = Some (imp ++ serial_names cur (length items),
              cur + N.of_nat (length items)) ∧
  index r.1 = index s ∧
  out s `prefix_of` out r.1 ∧
  (∀ n, (∀ i, (i < length items)%nat →
              n ≠ Name.serial_name (cur + N.of_nat i)) →
        images r.1 !! n = images s !! n ∧ thumbs r.1 !! n = thumbs s !! n) ∧
  (∀ i f, items !! i = Some f →
     let name := Name.serial_name (cur + N.of_nat i) in
     let a := (import_file L args source_dir ([], cur + N.of_nat i) f s).1 in
     images r.1 !! name = images a !! name ∧
     thumbs r.1 !! name = thumbs a !! name ∧
     ∀ e, e ∈ out a → e ∈ out r.1).
Proof.
  revert imp cur s. induction items as [|f rest IH]; intros imp cur s Hok.
  { cbv zeta. cbn [for_each length]. unfold ret. cbn [fst snd].
    unfold serial_names. cbn [seq fmap list_fmap].
    rewrite app_nil_r, N.add_0_r.
    split; [done|]. split; [done|]. split; [done|]. split; [done|].
    intros i f Hi. by rewrite lookup_nil in Hi. }
  apply Forall_cons in Hok as [Hf Hrest].
  pose proof (local_import_file L args source_dir (imp, cur) f) as Hloc.
  cbn [snd] in Hloc.
  set (s1 := (import_file L args source_dir (imp, cur) f s).1).
  destruct (IH (imp ++ [Name.serial_name cur]) (cur + 1) s1 Hrest)
    as (Hres & Hidx & Hpre & Hframe & Hitems).
  assert (Hrun : for_each (f :: rest) (imp, cur) (import_file L args source_dir) s =
          for_each rest (imp ++ [Name.serial_name cur], cur + 1)
            (import_file L args source_dir) s1).
  { cbn [for_each].
    by rewrite (bind_run _ _ _ _ (import_file_returns (imp, cur) f s Hf)). }
  cbv zeta. rewrite Hrun. cbn [length].
  assert (Hsucc : ∀ j, cur + 1 + N.of_nat j = cur + N.of_nat (S j)) by (intros; lia).
  split; [|split; [|split; [|split]]].
  - rewrite Hres, serial_names_S, <- (assoc_L (++)), Hsucc. done.
  - rewrite Hidx. by apply (local_index _ _ _ Hloc).
  - etrans; [|exact Hpre]. by apply (local_out _ _ _ Hloc).
  - intros n Hn.
    destruct (Hframe n) as [Hi Ht].
    { intros i Hlt. rewrite Hsucc. apply Hn. lia. }
    rewrite Hi, Ht. apply (local_frame _ _ _ _ Hloc).
    rewrite <- (N.add_0_r cur). apply (Hn 0%nat). lia.
  - intros [|j] f' Hlook.
    + injection Hlook as <-. cbv zeta. cbn [N.of_nat]. rewrite N.add_0_r.
      destruct (Hframe (Name.serial_name cur)) as [Hi Ht].
      { intros i _. apply serial_name_ne. lia. }
      pose proof (import_file_state (imp, cur) f s) as Hst. cbn [snd] in Hst.
      rewrite Hi, Ht, <- Hst.
      fold s1. repeat split; try done.
      intros e He. destruct Hpre as [k ->]. apply elem_of_app. by left.
    + cbn [lookup list_lookup] in Hlook. cbv zeta. rewrite <- Hsucc.
      destruct (Hitems j f' Hlook) as (Hi & Ht & Hev).
      rewrite Hi, Ht.
      pose proof (local_import_file L args source_dir ([], cur + 1 + N.of_nat j) f')
        as Hloc'.
      cbn [snd] in Hloc'.
      destruct (local_frame _ _ s (Name.serial_name (cur + 1 + N.of_nat j)) Hloc)
        as [Hi1 Ht1].
      { apply serial_name_ne. lia. }
      fold s1 in Hi1, Ht1.
      destruct (local_agree _ _ s1 s Hloc' Hi1 Ht1)
        as (_ & Hi2 & Ht2 & ev & Ho1 & Ho2).
      repeat split; try done.
      intros e He. rewrite Ho2 in He. apply elem_of_app in He as [He|He].
      * destruct (local_out _ _ s Hloc) as [k1 Hk1]. fold s1 in Hk1.
        destruct Hpre as [k2 ->]. rewrite Hk1.
        rewrite !elem_of_app. auto.
      * apply Hev. rewrite Ho1. apply elem_of_app. by right.
Qed.

End Admission.

(** ** What a run prints and leaves *)

Section Reports.

Variable L : library.
Variable args : arguments.
Variable source_dir : gmap string node.

Lemma imported_of_app l1 l2 :
  imported_of (l1 ++ l2) = imported_of l1 ++ imported_of l2.
Proof. apply omap_app. Qed.

Lemma copy2_out f name s : out (copy2 L source_dir f name s).1 = out s.
Proof. unfold copy2. by repeat case_match. Qed.

Lemma update_exif_artist_out name p s :
  out (update_exif_artist L name p s).1 =
  out s ++ (if (stamp L name p s).2 is Some _ then [] else [WarnExif name]).
Proof.
  unfold update_exif_artist. rewrite try_except_print_state.
  destruct (stamp_frame L name p s) as (_ & _ & Ho).
  destruct (stamp L name p s).2; simpl; rewrite Ho; [by rewrite app_nil_r|done].
Qed.

Lemma stamping_out name s :
  ∃ ws, out (stamping L args name s).1 = out s ++ ws ∧ imported_of ws = [].
Proof.
  unfold stamping. destruct (given _).
  - rewrite update_exif_artist_out. eexists. split; [done|].
    by destruct (stamp L _ _ s).2.
  - exists []. by rewrite app_nil_r.
Qed.

Lemma derive_frame f name w h s :
  images (derive L source_dir f name w h s).1 = images s ∧
  index (derive L source_dir f name w h s).1 = index s ∧
  out (derive L source_dir f name w h s).1 = out s.
Proof. rewrite derive_unfold. by repeat case_match. Qed.

Lemma create_thumbnail_out f name w h s :
  out (create_thumbnail L source_dir f name w h s).1 =
  out s ++ (if (derive L source_dir f name w h s).2 is Some _
            then [] else [WarnThumbnail f]).
Proof.
  unfold create_thumbnail. rewrite try_except_print_state.
  destruct (derive_frame f name w h s) as (_ & _ & Ho).
  destruct (derive L _ _ _ _ _ s).2; simpl; rewrite Ho;
    [by rewrite app_nil_r|done].
Qed.

Lemma import_file_imported locals f s :
  copy_succeeds L source_dir f = true →
  imported_of (out (import_file L args source_dir locals f s).1) =
  imported_of (out s) ++ [(f, Name.serial_name locals.2)].
Proof.
  intros Hc. rewrite import_file_run by done. cbn [fst out add_out].
  rewrite create_thumbnail_out.
  destruct (stamping_out (Name.serial_name locals.2)
              (copy2 L source_dir f (Name.serial_name locals.2) s).1)
    as (ws & -> & Hws).
  rewrite copy2_out, !imported_of_app, Hws, app_nil_r.
  by destruct (derive L _ _ _ _ _ _).2; rewrite ?app_nil_r.
Qed.

Lemma for_each_imported items imp cur s :
  Forall (λ f, copy_succeeds L source_dir f = true) items →
  imported_of (out (for_each items (imp, cur) (import_file L args source_dir) s).1) =
  imported_of (out s) ++ zip items (serial_names cur (length items)).
Proof.
  revert imp cur s. induction items as [|f rest IH]; intros imp cur s Hok.
  { simpl. by rewrite app_nil_r. }
  apply Forall_cons in Hok as [Hf Hrest].
  cbn [for_each length].
  rewrite (bind_run _ _ _ _ (import_file_returns L args source_dir (imp, cur) f s Hf)).
  cbn [fst snd]. rewrite IH by done.
  rewrite (import_file_imported (imp, cur)) by done. cbn [snd].
  by rewrite serial_names_S, <- (assoc_L (++)).
Qed.

(** *** The index *)

Lemma write_index_unfold data s :
  write_index L data s =
  match toml_write L data with
  | Written => (add_out UpdatedIndex (set_index (Document data) s), Some tt)
  | OpenRaised => (add_out ErrTomlWrite s, Some tt)
  | DumpRaised rest => (add_out ErrTomlWrite (set_index rest s), Some tt)
  end.
Proof. unfold write_index. by destruct (toml_write L data). Qed.

Lemma write_index_index data s :
  index (write_index L data s).1 = after_write L data (index s).
Proof.
  rewrite write_index_unfold. unfold after_write.
  by destruct (toml_write L data).
Qed.

Lemma update_toml_index_unfold image_files s :
  update_toml_index L image_files s =
  let data := if index s is Document d then d else ∅ in
  let s' := if index s is Unloadable then add_out WarnTomlLoad s else s in
  match merge_images data image_files with
  | Some data' => write_index L data' s'
  | None => (s', None)
  end.
Proof.
  unfold update_toml_index, load_index, bind, get.
  destruct (index s) eqn:Hi; simpl; unfold call;
    by destruct (merge_images _ _).
Qed.

Lemma update_toml_index_frame image_files s :
  let r := update_toml_index L image_files s in
  images r.1 = images s ∧ thumbs r.1 = thumbs s ∧
  imported_of (out r.1) = imported_of (out s).
Proof.
  cbv zeta. rewrite update_toml_index_unfold. cbv zeta.
  destruct (merge_images _ _); [rewrite write_index_unfold|];
    repeat case_match; cbn [fst snd images thumbs out add_out set_index];
    rewrite ?imported_of_app, ?app_nil_r; done.
Qed.

Lemma conclude_frame imported_files s :
  let r := conclude L args imported_files s in
  images r.1 = images s ∧ thumbs r.1 = thumbs s ∧
  imported_of (out r.1) = imported_of (out s).
Proof.
  cbv zeta. unfold conclude. destruct (given (index_file args)).
  - destruct (update_toml_index_frame imported_files s) as (Hi & Ht & Ho).
    destruct (update_toml_index L imported_files s).2 as [[]|] eqn:Hr.
    + rewrite (bind_run _ _ _ _ Hr).
      unfold bind, print, modify, ret. cbn [fst snd images thumbs out add_out].
      by rewrite imported_of_app, Ho, app_nil_r.
    + by rewrite (bind_raise _ _ _ Hr).
  - unfold bind, print, modify, ret. cbn [fst snd images thumbs out add_out].
    by rewrite imported_of_app, app_nil_r.
Qed.

(** *** The run *)

Lemma main_run s :
  source args = Directory source_dir →
  let highest_num := find_highest_serial_number (Some (listing (images s))) in
  let image_files := get_image_files (listing source_dir).*1 in
  image_files ≠ [] →
  main L args s =
  bind (import_files L args source_dir highest_num image_files)
       (λ locals, conclude L args locals.1)
       (add_out (FoundFiles (length image_files))
          (add_out (FoundHighest highest_num) s)).
Proof.
  intros Hsrc. cbv zeta. intros Hne. unfold main. rewrite Hsrc.
  destruct (get_image_files _) eqn:Hfiles; [done|].
  reflexivity.
Qed.

Lemma main_nothing s :
  source args = Directory source_dir →
  get_image_files (listing source_dir).*1 = [] →
  main L args s =
  (add_out NoJpegFound
     (add_out (FoundHighest
        (find_highest_serial_number (Some (listing (images s))))) s),
   Some 0).
Proof. intros Hsrc Hnone. unfold main. by rewrite Hsrc, Hnone. Qed.

End Reports.

(** ** Failures of the stamper and of the derivative generator *)

Section Isolation.

Variable L : library.
Variable args : arguments.
Variable source_dir : gmap string node.

Lemma copy2_thumbs f name s : thumbs (copy2 L source_dir f name s).1 = thumbs s.
Proof. unfold copy2. by repeat case_match. Qed.

Lemma copy2_present f name s :
  copy_succeeds L source_dir f = true →
  is_Some (images (copy2 L source_dir f name s).1 !! name).
Proof.
  intros (c & _ & ->)%(copy2_run L source_dir f name s).
  unfold in_images. cbn [fst images set_images].
  rewrite lookup_partial_alter_eq. destruct (images s !! name) as [[]|]; simpl; eauto.
Qed.

Lemma stamp_present name p s :
  is_Some (images s !! name) → is_Some (images (stamp L name p s).1 !! name).
Proof.
  intros Hs. rewrite stamp_unfold. repeat case_match; try done.
  unfold in_images. cbn [fst images set_images].
  rewrite lookup_partial_alter_eq. by apply Image_save_is_Some.
Qed.

Lemma stamping_present name s :
  is_Some (images s !! name) →
  is_Some (images (stamping L args name s).1 !! name).
Proof.
  intros Hs. unfold stamping, update_exif_artist. destruct (given _); [|done].
  rewrite try_except_print_state.
  destruct (stamp L _ _ s).2; by apply stamp_present.
Qed.

Lemma stamping_thumbs name s : thumbs (stamping L args name s).1 = thumbs s.
Proof.
  unfold stamping, update_exif_artist. destruct (given _); [|done].
  rewrite try_except_print_state.
  destruct (stamp_frame L name (default "" (photographer args)) s) as (Ht & _).
  by destruct (stamp L _ _ s).2.
Qed.

Lemma create_thumbnail_images f name w h s :
  images (create_thumbnail L source_dir f name w h s).1 = images s.
Proof.
  unfold create_thumbnail. rewrite try_except_print_state.
  destruct (derive_frame L source_dir f name w h s) as (Hi & _).
  by destruct (derive L _ _ _ _ _ s).2.
Qed.

(** Whether the derivation raises depends on the source file and on what the
    thumbnail path holds, and on nothing else. *)
Lemma derive_result f name w h s s' :
  thumbs s !! name = thumbs s' !! name →
  (derive L source_dir f name w h s).2 = (derive L source_dir f name w h s').2.
Proof.
  intros Ht. rewrite !derive_unfold.
  destruct (open_image L (source_dir !! f)) as [im|]; [|done].
  destruct (if bool_decide (image_mode L im ∈ ["RGBA"; "P"])
            then convert_RGB L im else Some im) as [im'|]; [|done].
  destruct (thumbnail L (w, h) im') as [im''|]; [|done].
  unfold in_thumbs. cbn [snd]. by rewrite Ht.
Qed.

(** A derivation that raises creates no file. *)
Lemma derive_raised f name w h s :
  (derive L source_dir f name w h s).2 = None →
  thumbs s !! name = None →
  thumbs (derive L source_dir f name w h s).1 !! name = None.
Proof.
  rewrite derive_unfold.
  destruct (open_image L (source_dir !! f)) as [im|]; [|done].
  destruct (if bool_decide (image_mode L im ∈ ["RGBA"; "P"])
            then convert_RGB L im else Some im) as [im'|]; [|done].
  destruct (thumbnail L (w, h) im') as [im''|]; [|done].
  unfold in_thumbs. cbn [fst snd thumbs set_thumbs]. intros Hr Hn.
  rewrite lookup_partial_alter_eq. by apply Image_save_created.
Qed.

(** The turn of one file, when its copy goes through. *)
Lemma import_file_alone locals f s :
  copy_succeeds L source_dir f = true →
  let name := Name.serial_name locals.2 in
  let a := (import_file L args source_dir locals f s).1 in
  is_Some (images a !! name) ∧
  Imported f name ∈ out a ∧
  (given (photographer args) = true →
   (stamp L name (default "" (photographer args))
      (copy2 L source_dir f name s).1).2 = None →
   WarnExif name ∈ out a) ∧
  ((derive L source_dir f name 400 300 s).2 = None →
   WarnThumbnail f ∈ out a ∧
   (thumbs s !! name = None → thumbs a !! name = None)).
Proof.
  intros Hc. cbv zeta. rewrite import_file_run by done.
  set (name := Name.serial_name locals.2).
  set (s1 := (copy2 L source_dir f name s).1).
  set (s2 := (stamping L args name s1).1).
  set (s3 := (create_thumbnail L source_dir f name 400 300 s2).1).
  cbn [fst images thumbs out add_out].
  assert (thumbs s2 = thumbs s) as Ht2.
  { unfold s2. rewrite stamping_thumbs. apply copy2_thumbs. }
  split; [|split; [|split]].
  - unfold s3. rewrite create_thumbnail_images. apply stamping_present.
    by apply copy2_present.
  - apply elem_of_app. right. by apply list_elem_of_singleton.
  - intros Hg Hr. apply elem_of_app. left.
    unfold s3. rewrite create_thumbnail_out. apply elem_of_app. left.
    unfold s2, stamping. rewrite Hg, update_exif_artist_out. fold s1.
    rewrite Hr. apply elem_of_app. right. by apply list_elem_of_singleton.
  - intros Hr.
    assert ((derive L source_dir f name 400 300 s2).2 = None) as Hr2.
    { rewrite <- Hr. apply derive_result. by rewrite Ht2. }
    split.
    + apply elem_of_app. left. unfold s3. rewrite create_thumbnail_out, Hr2.
      apply elem_of_app. right. by apply list_elem_of_singleton.
    + intros Hn. unfold s3, create_thumbnail.
      rewrite try_except_raise by done. cbn [fst thumbs print modify add_out].
      apply derive_raised; [done|]. by rewrite Ht2.
Qed.

End Isolation.

(** ** Index merger *)

Section Merge.

Lemma append_images_array data l image_files :
  data !! "images" = Some (TArray l) →
  append_images data image_files =
  Some (<["images" := TArray (l ++ (image_entry <$> image_files))]> data).
Proof.
  revert data l. induction image_files as [|f rest IH]; intros data l Hl.
  - cbn [append_images fmap list_fmap]. by rewrite app_nil_r, insert_id.
  - cbn [append_images]. unfold append_image. rewrite Hl.
    cbn [mbind option_bind].
    rewrite (IH _ (l ++ [image_entry f])) by apply lookup_insert_eq.
    rewrite insert_insert_eq, <- (assoc_L (++)). done.
Qed.

Lemma merge_images_array data l image_files :
  data !! "images" = Some (TArray l) →
  merge_images data image_files =
  Some (<["images" := TArray (l ++ (image_entry <$> image_files))]> data).
Proof.
  intros Hl. unfold merge_images.
  rewrite bool_decide_eq_true_2 by (rewrite Hl; eauto).
  by apply append_images_array.
Qed.

Lemma merge_images_absent data image_files :
  data !! "images" = None →
  merge_images data image_files =
  Some (<["images" := TArray (image_entry <$> image_files)]> data).
Proof.
  intros Hn. unfold merge_images.
  rewrite bool_decide_eq_false_2 by (rewrite Hn; by intros [? ?]).
  rewrite (append_images_array _ []) by apply lookup_insert_eq.
  by rewrite insert_insert_eq.
Qed.

(** A value under ["images"] that is not a list makes the first [append]
    raise. *)
Lemma merge_images_raises data v f rest :
  data !! "images" = Some v → (∀ l, v ≠ TArray l) →
  merge_images data (f :: rest) = None.
Proof.
  intros Hv Hna. unfold merge_images.
  rewrite bool_decide_eq_true_2 by (rewrite Hv; eauto).
  cbn [append_images]. unfold append_image. rewrite Hv.
  destruct v; try done. by destruct (Hna l).
Qed.

Lemma merge_images_spec data image_files :
  (data !! "images" = None ∨ ∃ l, data !! "images" = Some (TArray l)) →
  ∃ data',
    merge_images data image_files = Some data' ∧
    data' !! "images" =
      Some (TArray (prior_images data ++ (image_entry <$> image_files))) ∧
    ∀ k, k ≠ "images" → data' !! k = data !! k.
Proof.
  unfold prior_images. intros [Hn|[l Hl]].
  - rewrite merge_images_absent, Hn by done. eexists. split; [done|].
    split; [apply lookup_insert_eq|]. intros. by apply lookup_insert_ne.
  - rewrite (merge_images_array _ l), Hl by done. eexists. split; [done|].
    split; [apply lookup_insert_eq|]. intros. by apply lookup_insert_ne.
Qed.

Lemma merge_images_Some_inv data image_files data' :
  merge_images data image_files = Some data' →
  image_files = [] ∨
  data !! "images" = None ∨ ∃ l, data !! "images" = Some (TArray l).
Proof.
  intros Hm. destruct image_files as [|f rest]; [by left|]. right.
  destruct (data !! "images") as [v|] eqn:Hv; [|by left]. right.
  destruct v; eauto;
    by rewrite (merge_images_raises _ _ _ _ Hv) in Hm.
Qed.

Variable L : library.

Lemma update_toml_index_merged image_files s data data' :
  index s = Document data →
  merge_images data image_files = Some data' →
  let r := update_toml_index L image_files s in
  r.2 = Some tt ∧ index r.1 = after_write L data' (index s).
Proof.
  intros Hi Hm. cbv zeta. rewrite update_toml_index_unfold, Hi. cbv zeta.
  rewrite Hm, write_index_unfold. unfold after_write.
  by destruct (toml_write L data').
Qed.

End Merge.

(** C5, as the code has it.  For a loadable index document whose ["images"]
    value is a list, or that has none, the merge yields a document with the
    prior entries in their order, followed by one entry per new name in
    their order, and with every other top-level key as it was; the call
    returns, and that document is what is written to the index path. *)
Theorem merge_preserves_document L data image_files s :
  index s = Document data →
  (data !! "images" = None ∨ ∃ l, data !! "images" = Some (TArray l)) →
  ∃ data',
    merge_images data image_files = Some data' ∧
    data' !! "images" =
      Some (TArray (prior_images data ++ (image_entry <$> image_files))) ∧
    (∀ k, k ≠ "images" → data' !! k = data !! k) ∧
    let r := update_toml_index L image_files s in
    r.2 = Some tt ∧ index r.1 = after_write L data' (index s).
Proof.
  intros Hi Harr.
  destruct (merge_images_spec data image_files Harr) as (data' & Hm & Hl & Hk).
  exists data'. repeat split; try done.
  - by apply (update_toml_index_merged L image_files s data data').
  - by apply (update_toml_index_merged L image_files s data data').
Qed.

Lemma merge_preserves_document_witness :
  index (State ∅ ∅ (Document Sample.titled) []) = Document Sample.titled ∧
  (Sample.titled !! "images" = None ∨
   ∃ l, Sample.titled !! "images" = Some (TArray l)) ∧
  ∃ data',
    merge_images Sample.titled ["LOP25-0002.jpeg"] = Some data' ∧
    data' !! "images" =
      Some (TArray (prior_images Sample.titled ++
                    (image_entry <$> ["LOP25-0002.jpeg"]))) ∧
    (∀ k, k ≠ "images" → data' !! k = Sample.titled !! k) ∧
    let r := update_toml_index Sample.plain ["LOP25-0002.jpeg"]
               (State ∅ ∅ (Document Sample.titled) []) in
    r.2 = Some tt ∧
    index r.1 = after_write Sample.plain data' (Document Sample.titled).
Proof.
  split; [reflexivity|]. split; [right; eexists; reflexivity|].
  apply (merge_preserves_document Sample.plain Sample.titled
           ["LOP25-0002.jpeg"] (State ∅ ∅ (Document Sample.titled) [])).
  - reflexivity.
  - right. eexists. reflexivity.
Defined.

(** C5 as it is worded fails: a loadable document whose ["images"] is a
    string makes the first [append] raise, and no document is written. *)
Lemma merge_raises_on_odd_document :
  ¬ merge_keeps_everything Sample.odd ["LOP25-0001.jpeg"] ∧
  update_toml_index Sample.plain ["LOP25-0001.jpeg"]
    (State ∅ ∅ (Document Sample.odd) []) =
  (State ∅ ∅ (Document Sample.odd) [], None).
Proof.
  split; [|reflexivity].
  intros (data' & Hm & _). vm_compute in Hm. discriminate.
Qed.

(** ** The run as a whole *)

Section Whole.

Variable L : library.
Variable args : arguments.
Variable source_dir : gmap string node.



(** A loop that ends has copied every file. *)
Lemma for_each_returns_inv items acc s acc' :
  (for_each items acc (import_file L args source_dir) s).2 = Some acc' →
  Forall (λ f, copy_succeeds L source_dir f = true) items.
Proof.
  revert acc s. induction items as [|f rest IH]; intros acc s Hr; [done|].
  cbn [for_each] in Hr.
  destruct (copy_succeeds L source_dir f) eqn:Hc.
  - constructor; [done|].
    rewrite (bind_run _ _ _ _ (import_file_returns L args source_dir acc f s Hc)) in Hr.
    by eapply IH.
  - rewrite bind_raise in Hr by (by rewrite import_file_raises). done.
Qed.

(** Lines 218-224, case by case. *)
Lemma conclude_unfold imported_files s :
  conclude L args imported_files s =
  if given (index_file args) then
    let data := if index s is Document d then d else ∅ in
    let s' := if index s is Unloadable then add_out WarnTomlLoad s else s in
    match merge_images data imported_files with
    | Some data' =>
        (add_out (Success (length imported_files)) (write_index L data' s').1,
         Some 0)
    | None => (s', None)
    end
  else (add_out (Success (length imported_files)) s, Some 0).
Proof.
  unfold conclude. destruct (given (index_file args)); [|done].
  unfold bind at 1. rewrite update_toml_index_unfold. cbv zeta.
  destruct (merge_images _ _) as [data'|]; [|done].
  rewrite write_index_unfold. by destruct (toml_write L data').
Qed.

(** The state in which the loop starts. *)
Lemma loop_start_index s e1 e2 :
  index (add_out e1 (add_out e2 s)) = index s.
Proof. done. Qed.

(** What it takes for a run over some files to end with status 0. *)
Lemma main_exit s :
  source args = Directory source_dir →
  let highest_num := find_highest_serial_number (Some (listing (images s))) in
  let image_files := get_image_files (listing source_dir).*1 in
  let names := serial_names (highest_num + 1) (length image_files) in
  let data := if index s is Document d then d else ∅ in
  Forall (λ f, copy_succeeds L source_dir f = true) image_files →
  (given (index_file args) = true → is_Some (merge_images data names)) →
  (main L args s).2 = Some 0.
Proof.
  intros Hsrc. cbv zeta. intros Hok Hm.
  destruct (get_image_files (listing source_dir).*1) as [|f rest] eqn:Hfiles.
  { by rewrite (main_nothing L args source_dir). }
  rewrite (main_run L args source_dir) by (done || by rewrite Hfiles).
  rewrite Hfiles. unfold import_files.
  match goal with |- (bind (for_each _ _ _) _ ?s0).2 = _ => set (s1 := s0) end.
  destruct (import_files_spec L args source_dir (f :: rest) []
              (find_highest_serial_number (Some (listing (images s))) + 1)
              s1 Hok) as (Hres & Hidx & _).
  rewrite (bind_run _ _ _ _ Hres). cbn [fst app].
  rewrite conclude_unfold. destruct (given (index_file args)); [|done].
  cbv zeta. rewrite Hidx. unfold s1. rewrite loop_start_index.
  destruct (Hm eq_refl) as [data' ->]. done.
Qed.

End Whole.

(** C4, as the code has it.  In a run that is given an index path, imports at
    least one file and returns, every new name is appended, as a table that
    holds it under ["file"], to the array under the top-level key ["images"]
    of the index document (the array is created empty if the document has
    none); the other keys stay as they were, and the resulting document is
    what is written to the index path. *)
Theorem imported_files_are_indexed L args source_dir s code :
  source args = Directory source_dir →
  given (index_file args) = true →
  let image_files := get_image_files (listing source_dir).*1 in
  image_files ≠ [] →
  let r := main L args s in
  r.2 = Some code →
  let highest_num := find_highest_serial_number (Some (listing (images s))) in
  let names := serial_names (highest_num + 1) (length image_files) in
  let data := if index s is Document d then d else ∅ in
  ∃ data',
    merge_images data names = Some data' ∧
    data' !! "images" =
      Some (TArray (prior_images data ++ (image_entry <$> names))) ∧
    (∀ k, k ≠ "images" → data' !! k = data !! k) ∧
    index r.1 = after_write L data' (index s).
Proof.
  intros Hsrc Hgiven. cbv zeta. intros Hne Hret.
  rewrite (main_run L args source_dir) in Hret |- * by done.
  unfold import_files in *.
  match type of Hret with (bind (for_each _ _ _) _ ?s0).2 = _ =>
    set (s1 := s0) in * end.
  destruct (for_each (get_image_files (listing source_dir).*1)
              ([], find_highest_serial_number (Some (listing (images s))) + 1)
              (import_file L args source_dir) s1).2 as [locals|] eqn:Hloop;
    [|by rewrite (bind_raise _ _ _ Hloop) in Hret].
  pose proof (for_each_returns_inv L args source_dir _ _ _ _ Hloop) as Hok.
  destruct (import_files_spec L args source_dir _ []
              (find_highest_serial_number (Some (listing (images s))) + 1)
              s1 Hok) as (Hres & Hidx & _).
  rewrite (bind_run _ _ _ _ Hres) in Hret |- *. cbn [fst app] in Hret |- *.
  rewrite conclude_unfold, Hgiven in Hret |- *. cbv zeta in Hret |- *.
  rewrite Hidx in Hret |- *. subst s1.
  rewrite loop_start_index in Hret |- *.
  destruct (merge_images _ _) as [data'|] eqn:Hm; [|done].
  destruct (merge_images_Some_inv _ _ _ Hm) as [Hnil|Harr].
  { apply (f_equal length) in Hnil. rewrite serial_names_length in Hnil.
    by destruct (get_image_files _). }
  destruct (merge_images_spec _
    (serial_names (find_highest_serial_number (Some (listing (images s))) + 1)
       (length (get_image_files (listing source_dir).*1))) Harr)
    as (data'' & Hm' & Hl & Hk).
  assert (data'' = data') as -> by congruence.
  exists data'. split; [done|]. split; [done|]. split; [done|].
  cbn [fst index add_out]. rewrite write_index_index. f_equal.
  destruct (index s) eqn:E; cbn [index add_out]; by rewrite Hidx.
Qed.

Lemma imported_files_are_indexed_witness :
  source (Sample.indexed Sample.two_files) = Directory Sample.two_files ∧
  given (index_file (Sample.indexed Sample.two_files)) = true ∧
  get_image_files (listing Sample.two_files).*1 ≠ [] ∧
  (main Sample.plain (Sample.indexed Sample.two_files) Sample.fresh).2
    = Some 0 ∧
  ∃ data',
    merge_images ∅ (serial_names (0 + 1) 2) = Some data' ∧
    data' !! "images" =
      Some (TArray (image_entry <$> ["LOP25-0001.jpeg"; "LOP25-0002.jpeg"])) ∧
    index (main Sample.plain (Sample.indexed Sample.two_files)
             Sample.fresh).1 = Document data'.
Proof.
  split; [reflexivity|]. split; [reflexivity|].
  split; [by vm_compute|]. split; [by vm_compute|].
  destruct (imported_files_are_indexed Sample.plain
              (Sample.indexed Sample.two_files) Sample.two_files
              Sample.fresh 0) as (data' & Hm & Hl & _ & Hi).
  - reflexivity.
  - reflexivity.
  - by vm_compute.
  - by vm_compute.
  - exists data'. split; [exact Hm|]. split; [exact Hl|exact Hi].
Defined.

(** C4 as it is worded fails: the names go under ["images"]; the document
    the run writes has no key ["entries"]. *)
Lemma no_entries_key :
  ¬ index_lists_under "entries"
      (index (main Sample.plain (Sample.indexed Sample.two_files)
                Sample.fresh).1)
      "LOP25-0001.jpeg" ∧
  index_lists_under "images"
      (index (main Sample.plain (Sample.indexed Sample.two_files)
                Sample.fresh).1)
      "LOP25-0001.jpeg".
Proof.
  assert (index (main Sample.plain (Sample.indexed Sample.two_files)
                   Sample.fresh).1 =
          Document {["images" := TArray (image_entry <$>
                       ["LOP25-0001.jpeg"; "LOP25-0002.jpeg"])]}) as ->
    by (by vm_compute).
  split.
  - intros (data & l & [= <-] & Hk & _). vm_compute in Hk. discriminate.
  - eexists _, _. split; [done|]. split; [reflexivity|]. by left.
Qed.

(** ** A failed write of the index *)

Section WriteFailure.

Variable L : library.
Variable args : arguments.
Variable source_dir : gmap string node.



End WriteFailure.



(** ** Enumerator and allocator, summed up *)

Lemma ends_with_app p n : ends_with p n = true ↔ ∃ stem, n = stem +:+ p.
Proof.
  split.
  - induction n as [|c n IH].
    + cbn [ends_with]. destruct (String.eqb_spec "" p) as [<-|]; [|done].
      by exists "".
    + rewrite ends_with_cons.
      destruct (String.eqb_spec (String c n) p) as [<-|_].
      * by exists "".
      * cbn [orb]. intros [stem ->]%IH. by exists (String c stem).
  - intros [stem ->]. induction stem as [|c stem IH].
    + apply ends_with_refl.
    + rewrite NameFacts.app_cons, ends_with_cons, IH. apply orb_true_r.
Qed.

(** The accepted names: a stem followed by one of the four extensions, in
    lower case or in upper case throughout. *)
Lemma accepted_spec n :
  accepted n = true ↔ ∃ stem ext, ext ∈ patterns ∧ n = stem +:+ ext.
Proof.
  unfold accepted. rewrite existsb_exists. split.
  - intros (ext & Hin%list_elem_of_In & [stem ->]%ends_with_app). eauto.
  - intros (stem & ext & Hin & ->). exists ext.
    split; [by apply list_elem_of_In|]. apply ends_with_app. eauto.
Qed.

Example mixed_case_is_not_accepted : accepted "photo.Jpg" = false.
Proof. reflexivity. Qed.

(** C8.  The enumerator returns the names with an accepted extension, each
    as often as the directory lists it, sorted by the order of strings; the
    result does not depend on the order in which the directory is listed,
    and it is the empty list when no name is accepted. *)
Theorem get_image_files_enumerates names :
  get_image_files names ≡ₚ filter (λ n, accepted n = true) names ∧
  Sorted String.le (get_image_files names) ∧
  (∀ names', names' ≡ₚ names →
             get_image_files names' = get_image_files names) ∧
  ((∀ n, n ∈ names → accepted n = false) → get_image_files names = []).
Proof.
  split; [apply get_image_files_permutation|].
  split; [apply get_image_files_sorted|].
  split; [intros; by apply get_image_files_deterministic|].
  intros Hnone. apply Permutation_nil_r.
  rewrite get_image_files_permutation.
  induction names as [|n names IH]; [done|].
  rewrite filter_cons. rewrite (Hnone n) by left.
  case_decide; [done|]. apply IH. intros. apply Hnone. by right.
Qed.

(** C3 at a name that goes on after the extension: the scan of the script
    counts it, the scan of the specification does not. *)
Theorem allocator_counts_longer_names :
  find_highest_serial_number (Some [("LOP25-0042.jpeg.bak", File "")]) = 42 ∧
  spec_highest_serial_number (Some [("LOP25-0042.jpeg.bak", File "")]) = 0.
Proof. split; reflexivity. Qed.

(** C2 at serial number 9999: the first run imports a file under number
    10000, the scan of the second run does not see that name and returns
    9999 again, and the second run gives number 10000 to its own file, which
    replaces the file of the first run. *)
Theorem serial_10000_is_given_twice :
  let run1 :=
    (main Sample.plain (Sample.indexed {["a.jpg" := File "A"]})
       Sample.full).1 in
  let run2 :=
    (main Sample.plain (Sample.indexed {["b.jpg" := File "B"]}) run1).1 in
  find_highest_serial_number (Some (listing (images Sample.full))) = 9999 ∧
  imported_of (out run1) = [("a.jpg", "LOP25-10000.jpeg")] ∧
  images run1 !! "LOP25-10000.jpeg" = Some (File "A") ∧
  find_highest_serial_number (Some (listing (images run1))) = 9999 ∧
  imported_of (out run2) =
    [("a.jpg", "LOP25-10000.jpeg"); ("b.jpg", "LOP25-10000.jpeg")] ∧
  images run2 !! "LOP25-10000.jpeg" = Some (File "B").
Proof. cbv zeta. repeat split; by vm_compute. Qed.

(** ** Consecutive runs below serial number 10000 *)

Section Consecutive.

Variable L : library.
Variable args : arguments.
Variable source_dir : gmap string node.

Lemma serials_listing (m : gmap string node) n :
  n ∈ serials (listing m) ↔
  ∃ name c, m !! name = Some (File c) ∧ Name.serial_of name = Some n.
Proof.
  unfold serials, listing. rewrite list_elem_of_omap. split.
  - intros ([name [c|]] & Hin%elem_of_map_to_list & Hs); simpl in *; [|done].
    eauto.
  - intros (name & c & Hm & Hs). exists (name, File c).
    split; [by apply elem_of_map_to_list|done].
Qed.

(** The names a run is about to give are not the names of files that are
    there already. *)
Lemma new_names_are_fresh s k :
  find_highest_serial_number (Some (listing (images s))) < k → k < 10000 →
  ∀ c, images s !! Name.serial_name k ≠ Some (File c).
Proof.
  intros Hlt Hk c Hc.
  destruct (find_highest_greatest (listing (images s))) as [Hle _].
  assert (k ∈ serials (listing (images s))) as Hin.
  { apply serials_listing. exists (Name.serial_name k), c. split; [done|].
    by apply NameFacts.serial_of_serial_name_small. }
  specialize (Hle k Hin). lia.
Qed.

Lemma serial_names_elem_of first n name :
  name ∈ serial_names first n ↔
  ∃ i, (i < n)%nat ∧ name = Name.serial_name (first + N.of_nat i).
Proof.
  unfold serial_names. rewrite list_elem_of_fmap. split.
  - intros (i & -> & Hi%elem_of_seq). exists i. split; [lia|done].
  - intros (i & Hi & ->). exists i. split; [done|]. apply elem_of_seq. lia.
Qed.

Lemma Image_save_file o c :
  ∃ c', (Image_save o (Some (File c))).1 = Some (File c').
Proof. destruct o; simpl; eauto. Qed.

Lemma stamp_file name p s c :
  images s !! name = Some (File c) →
  ∃ c', images (stamp L name p s).1 !! name = Some (File c').
Proof.
  intros Hs. rewrite stamp_unfold.
  destruct (open_image L _) as [im|]; [|eauto].
  destruct (piexif_load L _) as [exif_dict|]; [|eauto].
  destruct (encode_utf8 L p) as [artist|]; [|eauto].
  destruct (piexif_dump L _) as [exif_bytes|]; [|eauto].
  unfold in_images. cbn [fst images set_images].
  rewrite lookup_partial_alter_eq, Hs. apply Image_save_file.
Qed.

Lemma import_file_file locals f s :
  copy_succeeds L source_dir f = true →
  images s !! Name.serial_name locals.2 ≠ Some Dir →
  ∃ c, images (import_file L args source_dir locals f s).1
         !! Name.serial_name locals.2 = Some (File c).
Proof.
  intros Hc Hnd. rewrite import_file_run by done. cbn [fst images add_out].
  rewrite create_thumbnail_images.
  set (name := Name.serial_name locals.2) in *.
  assert (∃ c, images (copy2 L source_dir f name s).1 !! name = Some (File c))
    as [c Hcopy].
  { destruct (copy2_run L source_dir f name s Hc) as (c & _ & ->).
    unfold in_images. cbn [fst images set_images].
    rewrite lookup_partial_alter_eq.
    destruct (images s !! name) as [[]|]; simpl; eauto. done. }
  unfold stamping, update_exif_artist. destruct (given _); [|eauto].
  rewrite try_except_print_state.
  destruct (stamp_file name (default "" (photographer args)) _ c Hcopy)
    as [c' Hc'].
  destruct (stamp L _ _ _).2; eauto.
Qed.

(** After a run that stays below 10000, the allocator returns the highest
    serial number the run gave: the next run goes on from there. *)
Lemma next_run_continues s :
  source args = Directory source_dir →
  let highest_num := find_highest_serial_number (Some (listing (images s))) in
  let image_files := get_image_files (listing source_dir).*1 in
  image_files ≠ [] →
  Forall (λ f, copy_succeeds L source_dir f = true) image_files →
  highest_num + N.of_nat (length image_files) < 10000 →
  (∀ i, (i < length image_files)%nat →
        images s !! Name.serial_name (highest_num + 1 + N.of_nat i) ≠ Some Dir) →
  find_highest_serial_number (Some (listing (images (main L args s).1))) =
  highest_num + N.of_nat (length image_files).
Proof.
  intros Hsrc. cbv zeta. intros Hne Hok Hbound Hnd.
  set (S := find_highest_serial_number (Some (listing (images s)))) in *.
  set (items := get_image_files (listing source_dir).*1) in *.
  rewrite (main_run L args source_dir) by done. fold S items.
  unfold import_files.
  set (s1 := add_out (FoundFiles (length items)) (add_out (FoundHighest S) s)).
  destruct (import_files_spec L args source_dir items [] (S + 1) s1 Hok)
    as (Hres & _ & _ & Hframe & Hitems).
  rewrite (bind_run _ _ _ _ Hres).
  destruct (conclude_frame L args
              ([] ++ serial_names (S + 1) (length items),
               S + 1 + N.of_nat (length items)).1
              (for_each items ([], S + 1) (import_file L args source_dir) s1).1)
    as (-> & _ & _).
  set (s2 := (for_each items ([], S + 1) (import_file L args source_dir) s1).1) in *.
  eapply greatest_unique; [apply find_highest_greatest|].
  destruct (find_highest_greatest (listing (images s))) as [Hle _]. fold S in Hle.
  split.
  - intros n (name & c & Hm & Hs)%serials_listing.
    destruct (decide (name ∈ serial_names (S + 1) (length items)))
      as [(i & Hi & ->)%serial_names_elem_of|Hnot].
    + rewrite NameFacts.serial_of_serial_name_small in Hs by lia.
      injection Hs as <-. lia.
    + destruct (Hframe name) as [Heq _].
      { intros i Hi ->. apply Hnot, serial_names_elem_of. eauto. }
      rewrite Heq in Hm. etrans; [apply Hle|lia].
      apply serials_listing. eauto.
  - left. destruct items as [|f0 rest0] eqn:Hitems_eq; [done|].
    destruct (lookup_lt_is_Some_2 (f0 :: rest0) (length rest0)) as [f Hf];
      [simpl; lia|].
    destruct (Hitems _ _ Hf) as (Himg & _).
    assert (copy_succeeds L source_dir f = true) as Hc.
    { rewrite Forall_forall in Hok. apply Hok. by eapply list_elem_of_lookup_2. }
    destruct (import_file_file ([], S + 1 + N.of_nat (length rest0)) f s1 Hc)
      as [c Hc'].
    { cbn [snd]. apply (Hnd (length rest0)). simpl. lia. }
    cbn [snd] in Hc'. rewrite <- Himg in Hc'.
    apply serials_listing.
    exists (Name.serial_name (S + 1 + N.of_nat (length rest0))), c.
    split; [done|].
    rewrite NameFacts.serial_of_serial_name_small by (simpl in Hbound; lia).
    f_equal. simpl. lia.
Qed.

End Consecutive.

(** ** Two runs of the script, end to end *)

(** A source with [a.jpg] and [b.jpeg], an empty destination, no
    photographer, an index path that does not exist yet. *)
Example first_run :
  let r := main Sample.plain (Sample.indexed Sample.two_files) Sample.fresh in
  r.2 = Some 0 ∧
  images r.1 = {["LOP25-0001.jpeg" := File "A"; "LOP25-0002.jpeg" := File "B"]} ∧
  dom (thumbs r.1) = {["LOP25-0001.jpeg"; "LOP25-0002.jpeg"]} ∧
  index r.1 = Document {["images" := TArray [image_entry "LOP25-0001.jpeg";
                                             image_entry "LOP25-0002.jpeg"]]} ∧
  last (out r.1) = Some (Success 2).
Proof. cbv zeta. repeat split; by vm_compute. Qed.

(** The same destination again, with one new file [c.jpg]. *)
Example second_run :
  let r1 := main Sample.plain (Sample.indexed Sample.two_files) Sample.fresh in
  let r2 := main Sample.plain (Sample.indexed {["c.jpg" := File "C"]}) r1.1 in
  r2.2 = Some 0 ∧
  images r2.1 !! "LOP25-0003.jpeg" = Some (File "C") ∧
  index r2.1 = Document {["images" := TArray [image_entry "LOP25-0001.jpeg";
                                              image_entry "LOP25-0002.jpeg";
                                              image_entry "LOP25-0003.jpeg"]]}.
Proof. cbv zeta. repeat split; by vm_compute. Qed.

(** * Further properties of the script *)

(** ** Allocator and names *)

(** X1.  What the allocator returns: for an existing directory, a number
    that no serial number of a matching file exceeds and that is the serial
    number of one of them, or 0; always below 10000; the same for every
    order in which the directory is listed; 0 for a missing directory. *)
Theorem allocator_returns_greatest :
  find_highest_serial_number None = 0 ∧
  (∀ dest_dir, find_highest_serial_number dest_dir < 10000) ∧
  (∀ listing,
     greatest (find_highest_serial_number (Some listing)) (serials listing)) ∧
  (∀ l1 l2, l1 ≡ₚ l2 →
     find_highest_serial_number (Some l1) =
     find_highest_serial_number (Some l2)).
Proof.
  split; [done|]. split; [apply find_highest_bound|].
  split; [apply find_highest_greatest|apply find_highest_permutation].
Qed.

(** X2.  The scan of two listings put together is the greater of the two
    scans: entries that are added never lower the result. *)
Theorem allocator_of_two_listings l1 l2 :
  find_highest_serial_number (Some (l1 ++ l2)) =
  N.max (find_highest_serial_number (Some l1))
        (find_highest_serial_number (Some l2)).
Proof.
  unfold find_highest_serial_number. rewrite !scan_fold, !N.max_0_l.
  unfold serials. rewrite omap_app.
  induction (omap _ l1) as [|n ns IH]; simpl; [lia|]. rewrite IH. lia.
Qed.

(** X3.  Below 10000 the pattern of the allocator reads back the number
    that the template wrote: the name is matched, as a whole, and its digit
    group is the number. *)
Theorem template_round_trip n :
  n < 10000 →
  Name.pattern_match (Name.serial_name n) = Some (Name.fmt04 n) ∧
  Name.exact_serial (Name.serial_name n) = Some (Name.fmt04 n) ∧
  String.length (Name.fmt04 n) = 4%nat ∧
  Name.int (Name.fmt04 n) = n.
Proof.
  intros Hn.
  assert (Name.digits 4 (Name.fmt04 n +:+ ".jpeg")
          = Some (Name.fmt04 n, ".jpeg")) as Hd.
  { rewrite <- (NameFacts.fmt04_length_small n Hn).
    apply NameFacts.digits_app, NameFacts.fmt04_digits. }
  split; [|split; [|split]].
  - unfold Name.serial_name.
    by rewrite (NameFacts.pattern_match_eq _ _ _ _
                  (NameFacts.literal_app _ _) Hd).
  - unfold Name.exact_serial, Name.serial_name, mbind, option_bind.
    rewrite NameFacts.literal_app. cbv beta iota. by rewrite Hd.
  - by apply NameFacts.fmt04_length_small.
  - apply NameFacts.int_fmt04.
Qed.

Lemma template_round_trip_witness :
  7 < 10000 ∧
  Name.pattern_match (Name.serial_name 7) = Some (Name.fmt04 7) ∧
  Name.exact_serial (Name.serial_name 7) = Some (Name.fmt04 7) ∧
  String.length (Name.fmt04 7) = 4%nat ∧
  Name.int (Name.fmt04 7) = 7.
Proof. split; [lia|]. apply (template_round_trip 7). lia. Defined.

(** X4.  From 10000 on the template writes five digits or more, and the
    pattern of the allocator does not match the name it wrote. *)
Theorem template_outgrows_pattern n :
  10000 ≤ n →
  (4 < String.length (Name.fmt04 n))%nat ∧
  Name.pattern_match (Name.serial_name n) = None.
Proof.
  intros Hn. split; [by apply NameFacts.fmt04_length_large|].
  pose proof (NameFacts.serial_of_serial_name_large n Hn) as Hs.
  unfold Name.serial_of in Hs.
  by destruct (Name.pattern_match (Name.serial_name n)).
Qed.

Lemma template_outgrows_pattern_witness :
  10000 ≤ 12345 ∧
  (4 < String.length (Name.fmt04 12345))%nat ∧
  Name.pattern_match (Name.serial_name 12345) = None.
Proof. split; [lia|]. apply (template_outgrows_pattern 12345). lia. Defined.

(** X5.  The names given to consecutive numbers are pairwise distinct,
    whatever the first number, and the digits of a name read back as its
    number. *)
Theorem serial_names_distinct first n :
  NoDup (serial_names first n) ∧
  length (serial_names first n) = n ∧
  ∀ k, Name.int (Name.fmt04 k) = k.
Proof.
  split; [|split; [apply serial_names_length|apply NameFacts.int_fmt04]].
  unfold serial_names. apply NoDup_fmap_2_strong; [|apply NoDup_seq].
  intros i j _ _ Heq. apply (inj Name.serial_name) in Heq. lia.
Qed.

(** ** Enumerator *)

(** X6.  The files of a directory the run goes through: every entry whose
    name has one of the four extensions, and each of them once, although
    four patterns are globbed. *)
Theorem image_files_once (source_dir : gmap string node) :
  NoDup (get_image_files (listing source_dir).*1) ∧
  ∀ f, f ∈ get_image_files (listing source_dir).*1 ↔
       is_Some (source_dir !! f) ∧ accepted f = true.
Proof.
  split.
  - apply get_image_files_NoDup, NoDup_fst_map_to_list.
  - intros f. rewrite get_image_files_elem_of. unfold listing.
    rewrite list_elem_of_fmap. split.
    + intros [([f' x] & -> & Hin%elem_of_map_to_list) Ha]. eauto.
    + intros [[x Hx] Ha]. split; [|done]. exists (f, x).
      split; [done|]. by apply elem_of_map_to_list.
Qed.

(** ** The stamper, the derivative generator and the files of a run *)

Section Files.

Variable L : library.
Variable args : arguments.
Variable source_dir : gmap string node.

Lemma derive_saved f name w h s :
  (derive L source_dir f name w h s).2 = Some tt →
  ∃ c, thumbs (derive L source_dir f name w h s).1 !! name = Some (File c).
Proof.
  rewrite derive_unfold.
  destruct (open_image L (source_dir !! f)) as [im|]; [|done].
  destruct (if bool_decide (image_mode L im ∈ ["RGBA"; "P"])
            then convert_RGB L im else Some im) as [im'|]; [|done].
  destruct (thumbnail L (w, h) im') as [im''|]; [|done].
  unfold in_thumbs. cbn [fst snd thumbs set_thumbs].
  intros (c & _ & ->)%Image_save_saved.
  rewrite lookup_partial_alter_eq. eauto.
Qed.

(** What a run leaves under the name of its [i]-th file is what the turn of
    that file, on its own from the initial state, leaves there. *)
Lemma main_item s i f :
  source args = Directory source_dir →
  let highest_num := find_highest_serial_number (Some (listing (images s))) in
  let image_files := get_image_files (listing source_dir).*1 in
  Forall (λ f, copy_succeeds L source_dir f = true) image_files →
  image_files !! i = Some f →
  let name := Name.serial_name (highest_num + 1 + N.of_nat i) in
  let alone :=
    (import_file L args source_dir ([], highest_num + 1 + N.of_nat i) f s).1 in
  images (main L args s).1 !! name = images alone !! name ∧
  thumbs (main L args s).1 !! name = thumbs alone !! name.
Proof.
  intros Hsrc. cbv zeta. intros Hok Hi.
  set (S := find_highest_serial_number (Some (listing (images s)))) in *.
  set (items := get_image_files (listing source_dir).*1) in *.
  assert (items ≠ []) as Hne by (intros Heq; by rewrite Heq in Hi).
  rewrite (main_run L args source_dir) by done. fold S items.
  unfold import_files.
  set (s1 := add_out (FoundFiles (length items)) (add_out (FoundHighest S) s)).
  destruct (import_files_spec L args source_dir items [] (S + 1) s1 Hok)
    as (Hres & _ & _ & _ & Hitems).
  rewrite (bind_run _ _ _ _ Hres).
  destruct (conclude_frame L args
              ([] ++ serial_names (S + 1) (length items),
               S + 1 + N.of_nat (length items)).1
              (for_each items ([], S + 1) (import_file L args source_dir) s1).1)
    as (-> & -> & _).
  destruct (Hitems i f Hi) as (-> & -> & _).
  pose proof (local_import_file L args source_dir ([], S + 1 + N.of_nat i) f)
    as Hloc.
  cbn [snd] in Hloc.
  destruct (local_agree _ _ s1 s Hloc eq_refl eq_refl) as (_ & ? & ? & _).
  done.
Qed.

End Files.

(** X7.  The stamper never raises and prints at most its one warning; it
    leaves the thumbnails, the index and every other image as they are, and
    it neither creates nor removes the file it is given. *)
Theorem stamper_touches_one_file L image_file photographer s :
  let r := update_exif_artist L image_file photographer s in
  r.2 = Some tt ∧
  thumbs r.1 = thumbs s ∧ index r.1 = index s ∧
  (∀ n, n ≠ image_file → images r.1 !! n = images s !! n) ∧
  (is_Some (images r.1 !! image_file) ↔ is_Some (images s !! image_file)) ∧
  (out r.1 = out s ∨ out r.1 = out s ++ [WarnExif image_file]).
Proof.
  cbv zeta.
  split; [apply update_exif_artist_returns|].
  pose proof (update_exif_artist_out L image_file photographer s) as Hout.
  destruct (stamp_frame L image_file photographer s) as (Ht & Hi & _).
  assert (images (update_exif_artist L image_file photographer s).1 =
          images (stamp L image_file photographer s).1 ∧
          thumbs (update_exif_artist L image_file photographer s).1 =
          thumbs (stamp L image_file photographer s).1 ∧
          index (update_exif_artist L image_file photographer s).1 =
          index (stamp L image_file photographer s).1) as (Himg & Hth & Hidx).
  { unfold update_exif_artist. rewrite try_except_print_state.
    by destruct (stamp L image_file photographer s).2. }
  split; [by rewrite Hth|]. split; [by rewrite Hidx|]. split; [|split].
  - intros n Hn.
    by apply (local_frame _ _ s n
                (local_update_exif_artist L image_file photographer)).
  - rewrite Himg. split; [|apply stamp_present].
    destruct (images s !! image_file) as [x|] eqn:He; [eauto|].
    rewrite stamp_unfold, He. cbn [open_image fst]. by rewrite He.
  - rewrite Hout. destruct (stamp L image_file photographer s).2;
      [left; apply app_nil_r|by right].
Qed.

(** X8.  The derivative generator never raises and never touches the images
    or the index, nor any other thumbnail.  Either it leaves a file under
    the thumbnail name and prints nothing, or it prints its one warning and
    creates no file. *)
Theorem thumbnail_written_or_reported L source_dir source_file thumb_name
    max_width max_height s :
  let r := create_thumbnail L source_dir source_file thumb_name
             max_width max_height s in
  r.2 = Some tt ∧
  images r.1 = images s ∧ index r.1 = index s ∧
  (∀ n, n ≠ thumb_name → thumbs r.1 !! n = thumbs s !! n) ∧
  ((∃ c, thumbs r.1 !! thumb_name = Some (File c) ∧ out r.1 = out s) ∨
   (out r.1 = out s ++ [WarnThumbnail source_file] ∧
    (thumbs s !! thumb_name = None → thumbs r.1 !! thumb_name = None))).
Proof.
  cbv zeta. split; [apply try_except_print|].
  split; [apply create_thumbnail_images|].
  destruct (derive_frame L source_dir source_file thumb_name max_width
              max_height s) as (_ & Hi & Ho).
  pose proof (create_thumbnail_out L source_dir source_file thumb_name
                max_width max_height s) as Hout.
  split; [|split].
  - unfold create_thumbnail. rewrite try_except_print_state.
    by destruct (derive L _ _ _ _ _ s).2.
  - intros n Hn.
    by apply (local_frame _ _ s n
                (local_create_thumbnail L source_dir source_file thumb_name
                   max_width max_height)).
  - destruct (derive L source_dir source_file thumb_name max_width
                max_height s).2 as [[]|] eqn:Hr; rewrite Hout.
    + left. destruct (derive_saved L source_dir _ _ _ _ _ Hr) as [c Hc].
      exists c. split; [|apply app_nil_r].
      unfold create_thumbnail. by rewrite (try_except_run _ _ _ _ Hr).
    + right. split; [done|]. intros Hn.
      unfold create_thumbnail. rewrite (try_except_raise _ _ _ Hr).
      cbn [fst print modify thumbs add_out]. by apply derive_raised.
Qed.

(** X9.  Without a photographer a run copies and nothing more: the image
    under the new name of a file is the content of the source file. *)
Theorem unsigned_import_is_a_copy L args source_dir s i f c :
  source args = Directory source_dir →
  given (photographer args) = false →
  let highest_num := find_highest_serial_number (Some (listing (images s))) in
  let image_files := get_image_files (listing source_dir).*1 in
  Forall (λ f, copy_succeeds L source_dir f = true) image_files →
  image_files !! i = Some f →
  source_dir !! f = Some (File c) →
  let name := Name.serial_name (highest_num + 1 + N.of_nat i) in
  images s !! name ≠ Some Dir →
  images (main L args s).1 !! name = Some (File c).
Proof.
  intros Hsrc Hg. cbv zeta. intros Hok Hi Hc Hnd.
  destruct (main_item L args source_dir s i f Hsrc Hok Hi) as [-> _].
  assert (copy_succeeds L source_dir f = true) as Hcs.
  { rewrite Forall_forall in Hok. apply Hok. by eapply list_elem_of_lookup_2. }
  rewrite import_file_run by done. cbn [fst snd images add_out].
  rewrite create_thumbnail_images. unfold stamping. rewrite Hg. cbn [ret fst].
  destruct (copy2_run L source_dir f
              (Name.serial_name
                 (find_highest_serial_number (Some (listing (images s))) + 1 +
                  N.of_nat i)) s Hcs) as (c' & Hc' & ->).
  assert (c' = c) as -> by congruence.
  unfold in_images. cbn [fst images set_images].
  rewrite lookup_partial_alter_eq.
  by destruct (images s !! _) as [[]|].
Qed.

Lemma unsigned_import_is_a_copy_witness :
  source (Sample.indexed Sample.two_files) = Directory Sample.two_files ∧
  given (photographer (Sample.indexed Sample.two_files)) = false ∧
  images (main Sample.plain (Sample.indexed Sample.two_files) Sample.fresh).1
    !! Name.serial_name
         (find_highest_serial_number (Some (listing (images Sample.fresh)))
          + 1 + N.of_nat 1)
  = Some (File "B").
Proof.
  split; [reflexivity|]. split; [reflexivity|].
  apply (unsigned_import_is_a_copy Sample.plain
           (Sample.indexed Sample.two_files) Sample.two_files Sample.fresh
           1 "b.jpeg" "B").
  - reflexivity.
  - reflexivity.
  - vm_compute. by repeat constructor.
  - by vm_compute.
  - by vm_compute.
  - by vm_compute.
Defined.

(** X10.  In a run whose copies go through, every file whose thumbnail can be
    derived has a thumbnail under the very name of its image. *)
Theorem thumbnail_carries_image_name L args source_dir s i f :
  source args = Directory source_dir →
  let highest_num := find_highest_serial_number (Some (listing (images s))) in
  let image_files := get_image_files (listing source_dir).*1 in
  Forall (λ f, copy_succeeds L source_dir f = true) image_files →
  image_files !! i = Some f →
  let name := Name.serial_name (highest_num + 1 + N.of_nat i) in
  (derive L source_dir f name 400 300 s).2 = Some tt →
  ∃ c c', images (main L args s).1 !! name = Some c ∧
          thumbs (main L args s).1 !! name = Some (File c').
Proof.
  intros Hsrc. cbv zeta. intros Hok Hi Hd.
  destruct (main_item L args source_dir s i f Hsrc Hok Hi) as [-> ->].
  assert (copy_succeeds L source_dir f = true) as Hcs.
  { rewrite Forall_forall in Hok. apply Hok. by eapply list_elem_of_lookup_2. }
  destruct (import_file_alone L args source_dir
              ([], find_highest_serial_number (Some (listing (images s))) + 1 +
                   N.of_nat i) f s Hcs) as ([c Hc] & _).
  cbn [snd] in Hc. rewrite Hc.
  rewrite import_file_run by done. cbn [fst snd thumbs add_out].
  set (name := Name.serial_name _) in *.
  set (s2 := (stamping L args name (copy2 L source_dir f name s).1).1).
  assert (thumbs s2 = thumbs s) as Ht2.
  { unfold s2. rewrite stamping_thumbs. apply copy2_thumbs. }
  assert ((derive L source_dir f name 400 300 s2).2 = Some tt) as Hd2.
  { rewrite <- Hd. apply derive_result. by rewrite Ht2. }
  unfold create_thumbnail. rewrite (try_except_run _ _ _ _ Hd2).
  destruct (derive_saved L source_dir _ _ _ _ _ Hd2) as [c' Hc'].
  eauto.
Qed.

Lemma thumbnail_carries_image_name_witness :
  source (Sample.indexed Sample.two_files) = Directory Sample.two_files ∧
  ∃ c c',
    images (main Sample.plain (Sample.indexed Sample.two_files)
              Sample.fresh).1
      !! Name.serial_name
           (find_highest_serial_number (Some (listing (images Sample.fresh)))
            + 1 + N.of_nat 0) = Some c ∧
    thumbs (main Sample.plain (Sample.indexed Sample.two_files)
              Sample.fresh).1
      !! Name.serial_name
           (find_highest_serial_number (Some (listing (images Sample.fresh)))
            + 1 + N.of_nat 0) = Some (File c').
Proof.
  split; [reflexivity|].
  apply (thumbnail_carries_image_name Sample.plain
           (Sample.indexed Sample.two_files) Sample.two_files Sample.fresh
           0 "a.jpg").
  - reflexivity.
  - vm_compute. by repeat constructor.
  - by vm_compute.
  - by vm_compute.
Defined.

(** ** Runs *)

Section Runs.

Variable L : library.
Variable args : arguments.
Variable source_dir : gmap string node.

Lemma for_each_app {A B} (l1 l2 : list A) (acc : B) (body : B → A → cmd B) s :
  for_each (l1 ++ l2) acc body s =
  bind (for_each l1 acc body) (λ acc', for_each l2 acc' body) s.
Proof.
  revert acc s. induction l1 as [|x l1 IH]; intros acc s; [done|].
  cbn [app for_each]. unfold bind.
  destruct (body acc x s) as [s' [acc'|]]; [|done]. rewrite IH. done.
Qed.

Lemma import_file_result_inv locals f s locals' :
  (import_file L args source_dir locals f s).2 = Some locals' →
  locals'.2 = locals.2 + 1.
Proof.
  destruct (copy_succeeds L source_dir f) eqn:Hc.
  - rewrite import_file_returns by done. by intros [= <-].
  - by rewrite import_file_raises.
Qed.

(** Whatever fails, the loop touches nothing but the entries of the names
    it gives, and never the index. *)
Lemma for_each_frame items locals s :
  let r := for_each items locals (import_file L args source_dir) s in
  index r.1 = index s ∧
  ∀ n, n ∉ serial_names locals.2 (length items) →
       images r.1 !! n = images s !! n ∧ thumbs r.1 !! n = thumbs s !! n.
Proof.
  cbv zeta. revert locals s.
  induction items as [|f rest IH]; intros locals s; [done|].
  cbn [for_each length].
  pose proof (local_import_file L args source_dir locals f) as Hloc.
  assert (∀ n, n ∉ serial_names locals.2 (S (length rest)) →
               n ≠ Name.serial_name locals.2 ∧
               n ∉ serial_names (locals.2 + 1) (length rest)) as Hsplit.
  { intros n. rewrite serial_names_S, not_elem_of_cons. tauto. }
  destruct (import_file L args source_dir locals f s).2 as [locals'|] eqn:Hr.
  - rewrite (bind_run _ _ _ _ Hr).
    destruct (IH locals' (import_file L args source_dir locals f s).1)
      as [Hidx Hfr].
    rewrite (import_file_result_inv _ _ _ _ Hr) in Hfr.
    split; [by rewrite Hidx, (local_index _ _ _ Hloc)|].
    intros n [Hne Hn]%Hsplit. destruct (Hfr n Hn) as [-> ->].
    by apply (local_frame _ _ _ _ Hloc).
  - rewrite (bind_raise _ _ _ Hr). cbn [fst].
    split; [by apply (local_index _ _ _ Hloc)|].
    intros n [Hne _]%Hsplit. by apply (local_frame _ _ _ _ Hloc).
Qed.

Lemma conclude_index imported_files s :
  given (index_file args) = false →
  index (conclude L args imported_files s).1 = index s.
Proof. intros Hg. rewrite conclude_unfold, Hg. done. Qed.

(** The state a run over some files ends in, in terms of its loop. *)
Lemma main_state s :
  source args = Directory source_dir →
  let highest_num := find_highest_serial_number (Some (listing (images s))) in
  let image_files := get_image_files (listing source_dir).*1 in
  image_files ≠ [] →
  let loop :=
    import_files L args source_dir highest_num image_files
      (add_out (FoundFiles (length image_files))
         (add_out (FoundHighest highest_num) s)) in
  images (main L args s).1 = images loop.1 ∧
  thumbs (main L args s).1 = thumbs loop.1 ∧
  (given (index_file args) = false → index (main L args s).1 = index loop.1).
Proof.
  intros Hsrc. cbv zeta. intros Hne.
  rewrite (main_run L args source_dir) by done.
  set (loop := import_files L args source_dir _ _).
  set (s1 := add_out _ _).
  destruct (loop s1).2 as [locals|] eqn:Hr.
  - rewrite (bind_run _ _ _ _ Hr).
    destruct (conclude_frame L args locals.1 (loop s1).1) as (-> & -> & _).
    repeat split; try done. intros Hg. by apply conclude_index.
  - by rewrite (bind_raise _ _ _ Hr).
Qed.

(** A run touches no entry of the two directories but those of the names it
    gives. *)
Lemma main_frame s n :
  source args = Directory source_dir →
  n ∉ serial_names
        (find_highest_serial_number (Some (listing (images s))) + 1)
        (length (get_image_files (listing source_dir).*1)) →
  images (main L args s).1 !! n = images s !! n ∧
  thumbs (main L args s).1 !! n = thumbs s !! n.
Proof.
  intros Hsrc Hn.
  destruct (get_image_files (listing source_dir).*1) as [|f rest] eqn:Hfiles.
  { by rewrite (main_nothing L args source_dir). }
  pose proof (main_state s Hsrc) as Hst. cbv zeta in Hst.
  destruct Hst as (-> & -> & _); [by rewrite Hfiles|].
  rewrite Hfiles. unfold import_files.
  destruct (for_each_frame (f :: rest)
              ([], find_highest_serial_number (Some (listing (images s))) + 1)
              (add_out (FoundFiles (length (f :: rest)))
                 (add_out (FoundHighest
                    (find_highest_serial_number (Some (listing (images s)))))
                    s))) as [_ Hfr].
  by apply Hfr.
Qed.

End Runs.

(** X11.  Below 10000 the numbers go on from run to run: the names a run
    gives are not names of files that are there already, and after the run
    the allocator returns the last number the run gave. *)
Theorem runs_continue_below_10000 L args source_dir s :
  source args = Directory source_dir →
  let highest_num := find_highest_serial_number (Some (listing (images s))) in
  let image_files := get_image_files (listing source_dir).*1 in
  image_files ≠ [] →
  Forall (λ f, copy_succeeds L source_dir f = true) image_files →
  highest_num + N.of_nat (length image_files) < 10000 →
  (∀ i, (i < length image_files)%nat →
        images s !! Name.serial_name (highest_num + 1 + N.of_nat i) ≠ Some Dir) →
  (∀ i c, (i < length image_files)%nat →
          images s !! Name.serial_name (highest_num + 1 + N.of_nat i)
          ≠ Some (File c)) ∧
  find_highest_serial_number (Some (listing (images (main L args s).1))) =
  highest_num + N.of_nat (length image_files).
Proof.
  intros Hsrc. cbv zeta. intros Hne Hok Hbound Hnd. split.
  - intros i c Hi. apply new_names_are_fresh; lia.
  - by apply next_run_continues.
Qed.

Lemma runs_continue_below_10000_witness :
  source (Sample.indexed Sample.two_files) = Directory Sample.two_files ∧
  find_highest_serial_number
    (Some (listing (images (main Sample.plain
                              (Sample.indexed Sample.two_files)
                              Sample.one_image).1))) =
  find_highest_serial_number (Some (listing (images Sample.one_image))) +
  N.of_nat (length (get_image_files (listing Sample.two_files).*1)).
Proof.
  split; [reflexivity|].
  apply (runs_continue_below_10000 Sample.plain
           (Sample.indexed Sample.two_files) Sample.two_files
           Sample.one_image).
  - reflexivity.
  - by vm_compute.
  - vm_compute. by repeat constructor.
  - by vm_compute.
  - intros i Hi.
    assert (i = 0 ∨ i = 1)%nat as [-> | ->] by (vm_compute in Hi; lia);
      by vm_compute.
Defined.

(** X12.  A run that stays below 10000 replaces no image that is there
    already, whatever fails in it. *)
Theorem run_keeps_existing_images L args source_dir s name c :
  source args = Directory source_dir →
  find_highest_serial_number (Some (listing (images s))) +
    N.of_nat (length (get_image_files (listing source_dir).*1)) < 10000 →
  images s !! name = Some (File c) →
  images (main L args s).1 !! name = Some (File c).
Proof.
  intros Hsrc Hbound Hc.
  destruct (main_frame L args source_dir s name Hsrc) as [-> _]; [|done].
  intros (i & Hi & ->)%serial_names_elem_of.
  by apply (new_names_are_fresh s
              (find_highest_serial_number (Some (listing (images s))) + 1 +
               N.of_nat i)) in Hc; [|lia..].
Qed.

Lemma run_keeps_existing_images_witness :
  source (Sample.signed Sample.one_broken) = Directory Sample.one_broken ∧
  images (main Sample.broken_encoder (Sample.signed Sample.one_broken)
            Sample.one_image).1 !! "LOP25-0001.jpeg" = Some (File "pixels").
Proof.
  split; [reflexivity|].
  apply (run_keeps_existing_images Sample.broken_encoder
           (Sample.signed Sample.one_broken) Sample.one_broken
           Sample.one_image).
  - reflexivity.
  - by vm_compute.
  - by vm_compute.
Defined.

(** ** Runs whose copies all go through *)

Section Through.

Variable L : library.
Variable args : arguments.
Variable source_dir : gmap string node.

(** Lines 218-224 print and take nothing back. *)
Lemma conclude_out imported_files s e :
  e ∈ out s → e ∈ out (conclude L args imported_files s).1.
Proof.
  intros He. rewrite conclude_unfold.
  destruct (given (index_file args)).
  - cbv zeta.
    assert (e ∈ out (if index s is Unloadable
                     then add_out WarnTomlLoad s else s)) as He'.
    { destruct (index s); cbn [out add_out]; rewrite ?elem_of_app; auto. }
    destruct (merge_images _ _) as [data'|]; [|done].
    rewrite write_index_unfold.
    destruct (toml_write L data');
      cbn [fst out add_out set_index]; rewrite !elem_of_app; auto.
  - cbn [fst out add_out]. rewrite elem_of_app. auto.
Qed.

(** Such a run comes to line 218 with every new name on its list, and with
    the index as it was. *)
Lemma main_through s :
  source args = Directory source_dir →
  let highest_num := find_highest_serial_number (Some (listing (images s))) in
  let image_files := get_image_files (listing source_dir).*1 in
  image_files ≠ [] →
  Forall (λ f, copy_succeeds L source_dir f = true) image_files →
  let loop :=
    (import_files L args source_dir highest_num image_files
       (add_out (FoundFiles (length image_files))
          (add_out (FoundHighest highest_num) s))).1 in
  main L args s =
    conclude L args (serial_names (highest_num + 1) (length image_files)) loop ∧
  index loop = index s.
Proof.
  intros Hsrc. cbv zeta. intros Hne Hok.
  rewrite (main_run L args source_dir) by done.
  unfold import_files.
  set (S := find_highest_serial_number (Some (listing (images s)))).
  set (items := get_image_files (listing source_dir).*1) in *.
  set (s1 := add_out (FoundFiles (length items)) (add_out (FoundHighest S) s)).
  destruct (import_files_spec L args source_dir items [] (S + 1) s1 Hok)
    as (Hres & Hidx & _).
  rewrite (bind_run _ _ _ _ Hres). by split.
Qed.

(** What the turn of a file prints, the run prints. *)
Lemma main_item_event s i f e :
  source args = Directory source_dir →
  let highest_num := find_highest_serial_number (Some (listing (images s))) in
  let image_files := get_image_files (listing source_dir).*1 in
  Forall (λ f, copy_succeeds L source_dir f = true) image_files →
  image_files !! i = Some f →
  e ∈ out (import_file L args source_dir
             ([], highest_num + 1 + N.of_nat i) f s).1 →
  e ∈ out (main L args s).1.
Proof.
  intros Hsrc. cbv zeta. intros Hok Hi He.
  assert (get_image_files (listing source_dir).*1 ≠ []) as Hne
    by (intros Heq; by rewrite Heq in Hi).
  destruct (main_through s Hsrc Hne Hok) as [-> _].
  apply conclude_out. unfold import_files.
  set (S := find_highest_serial_number (Some (listing (images s)))) in *.
  set (items := get_image_files (listing source_dir).*1) in *.
  set (s1 := add_out (FoundFiles (length items)) (add_out (FoundHighest S) s)).
  destruct (import_files_spec L args source_dir items [] (S + 1) s1 Hok)
    as (_ & _ & Hpre & _ & Hitems).
  destruct (Hitems i f Hi) as (_ & _ & Hev).
  pose proof (local_import_file L args source_dir ([], S + 1 + N.of_nat i) f)
    as Hloc.
  cbn [snd] in Hloc.
  destruct (local_agree _ _ s1 s Hloc eq_refl eq_refl)
    as (_ & _ & _ & ev & Ho1 & Ho2).
  rewrite Ho2 in He. apply elem_of_app in He as [He|He].
  - destruct Hpre as [k ->]. unfold s1. cbn [out add_out].
    rewrite !elem_of_app. auto.
  - apply Hev. rewrite Ho1. apply elem_of_app. by right.
Qed.

(** The document such a run hands to the write of the index. *)
Lemma main_index s data' :
  source args = Directory source_dir →
  let highest_num := find_highest_serial_number (Some (listing (images s))) in
  let image_files := get_image_files (listing source_dir).*1 in
  let names := serial_names (highest_num + 1) (length image_files) in
  let data := if index s is Document d then d else ∅ in
  image_files ≠ [] →
  Forall (λ f, copy_succeeds L source_dir f = true) image_files →
  given (index_file args) = true →
  merge_images data names = Some data' →
  index (main L args s).1 = after_write L data' (index s).
Proof.
  intros Hsrc. cbv zeta. intros Hne Hok Hg Hm.
  destruct (main_through s Hsrc Hne Hok) as [-> Hidx].
  rewrite conclude_unfold, Hg. cbv zeta. rewrite Hidx, Hm.
  cbn [fst index add_out]. rewrite write_index_index. f_equal.
  destruct (index s) eqn:E; cbn [index add_out]; by rewrite Hidx.
Qed.

(** Only the merge into the index can end such a run in an exception. *)
Lemma main_through_status s :
  source args = Directory source_dir →
  let highest_num := find_highest_serial_number (Some (listing (images s))) in
  let image_files := get_image_files (listing source_dir).*1 in
  let names := serial_names (highest_num + 1) (length image_files) in
  let data := if index s is Document d then d else ∅ in
  Forall (λ f, copy_succeeds L source_dir f = true) image_files →
  (main L args s).2 = Some 0 ∨
  ((main L args s).2 = None ∧ given (index_file args) = true ∧
   merge_images data names = None).
Proof.
  intros Hsrc. cbv zeta. intros Hok.
  destruct (given (index_file args)) eqn:Hg.
  - destruct (merge_images
                (if index s is Document d then d else ∅)
                (serial_names
                   (find_highest_serial_number (Some (listing (images s))) + 1)
                   (length (get_image_files (listing source_dir).*1))))
      as [data'|] eqn:Hm.
    + left. apply (main_exit L args source_dir s Hsrc Hok).
      intros _. rewrite Hm. eauto.
    + right.
      destruct (get_image_files (listing source_dir).*1) as [|f rest] eqn:Hfiles.
      { unfold merge_images in Hm. cbn [length serial_names] in Hm.
        by destruct (bool_decide _). }
      assert (get_image_files (listing source_dir).*1 ≠ []) as Hne
        by (by rewrite Hfiles).
      destruct (main_through s Hsrc Hne) as [-> Hidx]; [by rewrite Hfiles|].
      rewrite Hfiles in Hidx |- *.
      rewrite conclude_unfold, Hg. cbv zeta. by rewrite Hidx, Hm.
  - left. apply (main_exit L args source_dir s Hsrc Hok). by rewrite Hg.
Qed.

(** The array a merge of some names leaves under ["images"]. *)
Lemma merge_images_lists data image_files data' :
  image_files ≠ [] →
  merge_images data image_files = Some data' →
  data' !! "images" =
    Some (TArray (prior_images data ++ (image_entry <$> image_files))).
Proof.
  intros Hne Hm.
  destruct (merge_images_Some_inv _ _ _ Hm) as [Hnil|Harr]; [done|].
  destruct (merge_images_spec _ image_files Harr) as (data'' & Hm' & Hl & _).
  congruence.
Qed.

Lemma serial_names_fmap first n :
  Name.serial_name <$> ((λ i, first + N.of_nat i) <$> seq 0 n) =
  serial_names first n.
Proof. unfold serial_names. by rewrite <- list_fmap_compose. Qed.

End Through.

(** C1.  When no copy fails, the run imports the enumerated files in their
    order, the [i]-th of them (from 0) under serial number [S + 1 + i], where
    [S] is what the allocator returned: the identifiers are S+1, ..., S+N,
    one more at every file.  This is so in the report of the run; in the
    images directory, where the name of number [S + 1 + i] holds what the
    turn of the [i]-th file leaves there (a file, and without a photographer
    the very content of the source file, unless the name was that of a
    directory) and no other name is touched; and in the document written to
    the index, to which exactly these names are appended. *)
Theorem imported_identifiers L args source_dir s :
  source args = Directory source_dir →
  let S := find_highest_serial_number (Some (listing (images s))) in
  let image_files := get_image_files (listing source_dir).*1 in
  Forall (λ f, copy_succeeds L source_dir f = true) image_files →
  let ids := (λ i, S + 1 + N.of_nat i) <$> seq 0 (length image_files) in
  let data := if index s is Document d then d else ∅ in
  let r := main L args s in
  imported_of (out r.1) =
    imported_of (out s) ++ zip image_files (Name.serial_name <$> ids) ∧
  (∀ i f, image_files !! i = Some f →
     let name := Name.serial_name (S + 1 + N.of_nat i) in
     let alone :=
       (import_file L args source_dir ([], S + 1 + N.of_nat i) f s).1 in
     is_Some (images r.1 !! name) ∧
     images r.1 !! name = images alone !! name ∧
     (images s !! name ≠ Some Dir →
      (∃ c, images r.1 !! name = Some (File c)) ∧
      (given (photographer args) = false →
       images r.1 !! name = source_dir !! f))) ∧
  (∀ n, n ∉ (Name.serial_name <$> ids) →
        images r.1 !! n = images s !! n ∧ thumbs r.1 !! n = thumbs s !! n) ∧
  (image_files ≠ [] → given (index_file args) = true →
   ∀ data', merge_images data (Name.serial_name <$> ids) = Some data' →
     data' !! "images" =
       Some (TArray (prior_images data ++
                     (image_entry <$> (Name.serial_name <$> ids)))) ∧
     index r.1 = after_write L data' (index s)).
Proof.
  intros Hsrc. cbv zeta. intros Hok.
  rewrite serial_names_fmap.
  set (S := find_highest_serial_number (Some (listing (images s)))).
  set (items := get_image_files (listing source_dir).*1) in *.
  split; [|split; [|split]].
  - destruct items as [|f0 rest] eqn:Hfiles.
    { rewrite (main_nothing L args source_dir) by done. simpl.
      by rewrite !imported_of_app, !app_nil_r. }
    assert (get_image_files (listing source_dir).*1 ≠ []) as Hne
      by (fold items; by rewrite Hfiles).
    destruct (main_through L args source_dir s Hsrc Hne) as [-> _].
    { fold items. by rewrite Hfiles. }
    fold S items. rewrite Hfiles.
    destruct (conclude_frame L args
                (serial_names (S + 1) (length (f0 :: rest)))
                (import_files L args source_dir S (f0 :: rest)
                   (add_out (FoundFiles (length (f0 :: rest)))
                      (add_out (FoundHighest S) s))).1) as (_ & _ & ->).
    unfold import_files. rewrite for_each_imported by done.
    cbn [out add_out]. rewrite !imported_of_app.
    cbn [imported_of omap list_omap]. by rewrite !app_nil_r.
  - intros i f Hi.
    assert (copy_succeeds L source_dir f = true) as Hc.
    { rewrite Forall_forall in Hok. apply Hok. by eapply list_elem_of_lookup_2. }
    destruct (main_item L args source_dir s i f Hsrc Hok Hi) as [Himg _].
    fold S in Himg. rewrite Himg.
    destruct (import_file_alone L args source_dir ([], S + 1 + N.of_nat i) f s Hc)
      as (Hp & _).
    cbn [snd] in Hp.
    split; [exact Hp|]. split; [done|]. intros Hnd. split.
    + apply (import_file_file L args source_dir ([], S + 1 + N.of_nat i) f s Hc Hnd).
    + intros Hg. rewrite import_file_run by done. cbn [fst snd images add_out].
      rewrite create_thumbnail_images. unfold stamping. rewrite Hg. cbn [ret fst].
      destruct (copy2_run L source_dir f
                  (Name.serial_name (S + 1 + N.of_nat i)) s Hc) as (c & -> & ->).
      unfold in_images. cbn [fst images set_images].
      rewrite lookup_partial_alter_eq.
      by destruct (images s !! _) as [[]|].
  - intros n Hn. by apply (main_frame L args source_dir).
  - intros Hne Hg data' Hm. split.
    + apply merge_images_lists; [|done].
      intros Hnil. apply (f_equal length) in Hnil.
      rewrite serial_names_length in Hnil. by destruct items.
    + by apply (main_index L args source_dir).
Qed.

Lemma imported_identifiers_witness :
  source (Sample.indexed Sample.two_files) = Directory Sample.two_files ∧
  Forall (λ f, copy_succeeds Sample.plain Sample.two_files f = true)
    (get_image_files (listing Sample.two_files).*1) ∧
  let r := main Sample.plain (Sample.indexed Sample.two_files) Sample.fresh in
  imported_of (out r.1) =
    [("a.jpg", "LOP25-0001.jpeg"); ("b.jpeg", "LOP25-0002.jpeg")] ∧
  images r.1 !! "LOP25-0001.jpeg" = Some (File "A") ∧
  images r.1 !! "LOP25-0002.jpeg" = Some (File "B") ∧
  images r.1 !! "LOP25-0003.jpeg" = None ∧
  index r.1 =
    Document {["images" := TArray [image_entry "LOP25-0001.jpeg";
                                   image_entry "LOP25-0002.jpeg"]]}.
Proof.
  split; [reflexivity|]. split; [by vm_compute; repeat constructor|].
  destruct (imported_identifiers Sample.plain (Sample.indexed Sample.two_files)
              Sample.two_files Sample.fresh) as (Hrep & Hfiles & Hrest & Hidx).
  - reflexivity.
  - vm_compute. by repeat constructor.
  - cbv zeta. split; [exact Hrep|].
    destruct (Hfiles 0%nat "a.jpg" eq_refl) as (_ & _ & Ha).
    destruct Ha as [_ Ha]; [by vm_compute|].
    destruct (Hfiles 1%nat "b.jpeg" eq_refl) as (_ & _ & Hb).
    destruct Hb as [_ Hb]; [by vm_compute|].
    split; [exact (Ha eq_refl)|]. split; [exact (Hb eq_refl)|].
    split.
    + destruct (Hrest "LOP25-0003.jpeg") as [H3 _]; [|exact H3].
      vm_compute. intros Hin.
      repeat (apply elem_of_cons in Hin as [Hin|Hin]; [discriminate|]).
      by apply elem_of_nil in Hin.
    + destruct (Hidx ltac:(by vm_compute) eq_refl
                  {["images" := TArray [image_entry "LOP25-0001.jpeg";
                                        image_entry "LOP25-0002.jpeg"]]})
        as [_ Hi]; [by vm_compute|exact Hi].
Defined.

(** C6.  Whatever fails in stamping or in deriving a thumbnail, a run whose
    copies go through is not ended by it: the run ends with status 0 unless
    the merge into the index raises.  For each file: it is in the images
    directory under its new name; the run reports it as imported; a failed
    stamping and a failed derivation are each reported by a warning that
    names the file; a failed derivation creates no thumbnail; what the run
    leaves under the file's name is what the file's own turn, run on its own
    from the initial state, leaves there, so that the turns of the other
    files have no part in it; and when an index path is given, the document
    handed to the write of the index lists the new name of the file under
    ["images"]. *)
Theorem failures_are_isolated L args source_dir s :
  source args = Directory source_dir →
  let highest_num := find_highest_serial_number (Some (listing (images s))) in
  let image_files := get_image_files (listing source_dir).*1 in
  Forall (λ f, copy_succeeds L source_dir f = true) image_files →
  let names := serial_names (highest_num + 1) (length image_files) in
  let data := if index s is Document d then d else ∅ in
  let r := main L args s in
  (r.2 = Some 0 ∨
   (r.2 = None ∧ given (index_file args) = true ∧
    merge_images data names = None)) ∧
  ∀ i f, image_files !! i = Some f →
    let name := Name.serial_name (highest_num + 1 + N.of_nat i) in
    let alone :=
      (import_file L args source_dir ([], highest_num + 1 + N.of_nat i) f s).1 in
    is_Some (images r.1 !! name) ∧
    Imported f name ∈ out r.1 ∧
    (given (photographer args) = true →
     (stamp L name (default "" (photographer args))
        (copy2 L source_dir f name s).1).2 = None →
     WarnExif name ∈ out r.1) ∧
    ((derive L source_dir f name 400 300 s).2 = None →
     WarnThumbnail f ∈ out r.1 ∧
     (thumbs s !! name = None → thumbs r.1 !! name = None)) ∧
    images r.1 !! name = images alone !! name ∧
    thumbs r.1 !! name = thumbs alone !! name ∧
    (given (index_file args) = true →
     ∀ data', merge_images data names = Some data' →
       index r.1 = after_write L data' (index s) ∧
       ∃ l, data' !! "images" = Some (TArray l) ∧ image_entry name ∈ l).
Proof.
  intros Hsrc. cbv zeta. intros Hok.
  split; [by apply (main_through_status L args source_dir)|].
  intros i f Hi.
  set (S := find_highest_serial_number (Some (listing (images s)))) in *.
  set (items := get_image_files (listing source_dir).*1) in *.
  assert (items ≠ []) as Hne by (intros Heq; by rewrite Heq in Hi).
  assert (copy_succeeds L source_dir f = true) as Hc.
  { rewrite Forall_forall in Hok. apply Hok. by eapply list_elem_of_lookup_2. }
  destruct (main_item L args source_dir s i f Hsrc Hok Hi) as [Himg Hth].
  fold S in Himg, Hth.
  pose proof (main_item_event L args source_dir s i f) as Hev.
  cbv zeta in Hev. fold S items in Hev.
  destruct (import_file_alone L args source_dir ([], S + 1 + N.of_nat i) f s Hc)
    as (Hp & Him & Hst & Hde).
  cbn [snd] in Hp, Him, Hst, Hde.
  rewrite Himg, Hth.
  split; [exact Hp|]. split; [by apply Hev|].
  split; [intros Hg Hr; by apply Hev, Hst|].
  split; [|split; [done|split; [done|]]].
  - intros Hr. destruct (Hde Hr) as [Hw Hn]. split; [by apply Hev|exact Hn].
  - intros Hg data' Hm. split.
    + by apply (main_index L args source_dir).
    + eexists. split.
      * apply merge_images_lists; [|done].
        intros Hnil. apply (f_equal length) in Hnil.
        rewrite serial_names_length in Hnil. by destruct items.
      * apply elem_of_app. right. apply list_elem_of_fmap. eexists.
        split; [done|]. apply serial_names_elem_of. exists i.
        split; [|done]. by apply lookup_lt_Some in Hi.
Qed.

Lemma failures_are_isolated_witness :
  source (Sample.signed Sample.one_broken) = Directory Sample.one_broken ∧
  Forall (λ f, copy_succeeds Sample.picky Sample.one_broken f = true)
    (get_image_files (listing Sample.one_broken).*1) ∧
  let r := main Sample.picky (Sample.signed Sample.one_broken) Sample.fresh in
  r.2 = Some 0 ∧
  WarnExif "LOP25-0001.jpeg" ∈ out r.1 ∧
  WarnThumbnail "a.jpg" ∈ out r.1 ∧
  thumbs r.1 !! "LOP25-0001.jpeg" = None ∧
  is_Some (images r.1 !! "LOP25-0001.jpeg") ∧
  index_lists_under "images" (index r.1) "LOP25-0001.jpeg".
Proof.
  split; [reflexivity|]. split; [by vm_compute; repeat constructor|].
  destruct (failures_are_isolated Sample.picky
              (Sample.signed Sample.one_broken) Sample.one_broken
              Sample.fresh) as [Hres Hitems].
  - reflexivity.
  - vm_compute. by repeat constructor.
  - cbv zeta. split.
    { destruct Hres as [H0|(_ & _ & Hm)]; [exact H0|].
      vm_compute in Hm. discriminate. }
    destruct (Hitems 0%nat "a.jpg" eq_refl) as (Hp & _ & Hst & Hde & _ & _ & Hidx).
    split; [apply Hst; reflexivity|].
    destruct Hde as [Hw Hn]; [reflexivity|].
    split; [exact Hw|]. split; [apply Hn; reflexivity|]. split; [exact Hp|].
    destruct (Hidx eq_refl
                {["images" := TArray [image_entry "LOP25-0001.jpeg";
                                      image_entry "LOP25-0002.jpeg"]]})
      as (Hi & l & Hl & Hin); [by vm_compute|].
    exists {["images" := TArray [image_entry "LOP25-0001.jpeg";
                                 image_entry "LOP25-0002.jpeg"]]}, l.
    split; [exact Hi|]. split; [exact Hl|exact Hin].
Defined.

(** ** How a run ends *)

(** X13.  When a run over a source directory ends with status 0: exactly
    when every copy goes through and, if an index path is given and there
    are files, the merge into the index does not raise.  Otherwise the run
    ends in an exception; it never returns another status. *)
Theorem main_exit_status L args source_dir s :
  source args = Directory source_dir →
  let highest_num := find_highest_serial_number (Some (listing (images s))) in
  let image_files := get_image_files (listing source_dir).*1 in
  let names := serial_names (highest_num + 1) (length image_files) in
  let data := if index s is Document d then d else ∅ in
  ((main L args s).2 = Some 0 ↔
   Forall (λ f, copy_succeeds L source_dir f = true) image_files ∧
   (image_files ≠ [] → given (index_file args) = true →
    is_Some (merge_images data names))) ∧
  ((main L args s).2 = Some 0 ∨ (main L args s).2 = None).
Proof.
  intros Hsrc. cbv zeta.
  destruct (get_image_files (listing source_dir).*1) as [|f rest] eqn:Hfiles.
  { rewrite (main_nothing L args source_dir) by done. cbn [snd].
    split; [|by left]. split; [|done]. intros _. by split. }
  assert (get_image_files (listing source_dir).*1 ≠ []) as Hne
    by (by rewrite Hfiles).
  rewrite (main_run L args source_dir) by done. rewrite Hfiles.
  unfold import_files.
  set (S := find_highest_serial_number (Some (listing (images s)))).
  set (s1 := add_out (FoundFiles (length (f :: rest)))
               (add_out (FoundHighest S) s)).
  destruct (for_each (f :: rest) ([], S + 1) (import_file L args source_dir)
              s1).2 as [locals|] eqn:Hloop.
  - pose proof (for_each_returns_inv L args source_dir _ _ _ _ Hloop) as Hok.
    destruct (import_files_spec L args source_dir (f :: rest) [] (S + 1) s1 Hok)
      as (Hres & Hidx & _).
    rewrite (bind_run _ _ _ _ Hres). cbn [fst app].
    rewrite conclude_unfold.
    destruct (given (index_file args)).
    + cbv zeta. rewrite Hidx. unfold s1. rewrite loop_start_index.
      destruct (merge_images _ _) as [data'|].
      * split; [|by left]. split; [|done]. intros _. split; [done|eauto].
      * split; [|by right]. split; [done|].
        intros [_ Hm]. by destruct Hm as [? ?].
    + split; [|by left]. split; [|done]. intros _. by split.
  - rewrite (bind_raise _ _ _ Hloop). cbn [snd]. split; [|by right].
    split; [done|]. intros [Hok _].
    destruct (import_files_spec L args source_dir (f :: rest) [] (S + 1) s1 Hok)
      as (Hres & _).
    congruence.
Qed.

Lemma main_exit_status_witness :
  source (Sample.indexed Sample.folder_inside)
    = Directory Sample.folder_inside ∧
  (main Sample.plain (Sample.indexed Sample.folder_inside) Sample.fresh).2
    = None.
Proof.
  split; [reflexivity|].
  destruct (main_exit_status Sample.plain
              (Sample.indexed Sample.folder_inside) Sample.folder_inside
              Sample.fresh eq_refl) as [Hiff [H0|Hnone]].
  - apply Hiff in H0 as [Hok _]. exfalso.
    rewrite Forall_forall in Hok.
    assert ("b.jpeg" ∈ get_image_files (listing Sample.folder_inside).*1)
      as Hin by (vm_compute; apply list_elem_of_further, list_elem_of_here).
    specialize (Hok _ Hin). by vm_compute in Hok.
  - exact Hnone.
Defined.

(** X14.  A copy that fails ends the run in an exception, there and then:
    the files before it are imported under their numbers, the failing file
    and the files after it are not reported, and the index is not touched.
    Under the name the failing file was to get, the images directory holds
    what the interrupted copy left there (the entry as it was when the copy
    raised before it opened its destination or when the name is that of a
    directory, a file with what had been written otherwise), and there is no
    new thumbnail; no entry other than that one and those of the files
    before it is changed. *)
Theorem failed_copy_aborts L args source_dir s before f after :
  source args = Directory source_dir →
  get_image_files (listing source_dir).*1 = before ++ f :: after →
  Forall (λ f, copy_succeeds L source_dir f = true) before →
  copy_succeeds L source_dir f = false →
  let highest_num := find_highest_serial_number (Some (listing (images s))) in
  let name := Name.serial_name (highest_num + 1 + N.of_nat (length before)) in
  let r := main L args s in
  r.2 = None ∧
  imported_of (out r.1) =
    imported_of (out s) ++
    zip before (serial_names (highest_num + 1) (length before)) ∧
  index r.1 = index s ∧
  images r.1 !! name =
    match source_dir !! f with
    | Some (File _) =>
        (copy_interrupted (copy2_leaves L f) (images s !! name)).1
    | _ => images s !! name
    end ∧
  thumbs r.1 !! name = thumbs s !! name ∧
  ∀ n, n ∉ serial_names (highest_num + 1) (length before + 1) →
       images r.1 !! n = images s !! n ∧ thumbs r.1 !! n = thumbs s !! n.
Proof.
  intros Hsrc Hfiles Hok Hf. cbv zeta.
  assert (get_image_files (listing source_dir).*1 ≠ []) as Hne.
  { rewrite Hfiles. by destruct before. }
  rewrite (main_run L args source_dir) by done. rewrite Hfiles.
  unfold import_files.
  set (S := find_highest_serial_number (Some (listing (images s)))).
  set (s1 := add_out (FoundFiles (length (before ++ f :: after)))
               (add_out (FoundHighest S) s)).
  set (name := Name.serial_name (S + 1 + N.of_nat (length before))).
  destruct (import_files_spec L args source_dir before [] (S + 1) s1 Hok)
    as (Hres & Hidx & _).
  pose proof (for_each_imported L args source_dir before [] (S + 1) s1 Hok)
    as Himp.
  destruct (for_each_frame L args source_dir before ([], S + 1) s1)
    as [_ Hfr].
  cbn [snd] in Hfr.
  set (s2 := (for_each before ([], S + 1) (import_file L args source_dir) s1).1)
    in *.
  assert (for_each (before ++ f :: after) ([], S + 1)
            (import_file L args source_dir) s1 =
          ((copy2 L source_dir f name s2).1, None)) as Hloop.
  { rewrite for_each_app, (bind_run _ _ _ _ Hres). cbn [for_each].
    rewrite bind_raise by (by rewrite import_file_raises).
    by rewrite import_file_raises. }
  rewrite bind_raise by (by rewrite Hloop). rewrite Hloop. cbn [fst snd].
  pose proof (local_copy2 L source_dir f name) as Hloc.
  assert (name ∉ serial_names (S + 1) (length before)) as Hname.
  { intros (i & Hi & Heq)%serial_names_elem_of.
    apply (inj Name.serial_name) in Heq. lia. }
  destruct (Hfr name Hname) as [Hi2 Ht2].
  assert (∀ n, n ∉ serial_names (S + 1) (length before + 1) →
               n ≠ name ∧ n ∉ serial_names (S + 1) (length before)) as Hsplit.
  { intros n Hn. split.
    - intros ->. apply Hn, serial_names_elem_of. exists (length before).
      split; [lia|done].
    - intros (i & Hi & ->)%serial_names_elem_of.
      apply Hn, serial_names_elem_of. exists i. split; [lia|done]. }
  split; [done|]. split; [|split; [|split; [|split]]].
  - rewrite copy2_out. fold s2 in Himp. rewrite Himp. unfold s1.
    cbn [out add_out]. rewrite !imported_of_app.
    cbn [imported_of omap list_omap]. by rewrite !app_nil_r.
  - rewrite (local_index _ _ _ Hloc). by rewrite Hidx.
  - destruct (local_agree _ _ s2 s Hloc) as (_ & -> & _); [done..|].
    unfold copy_succeeds in Hf. unfold copy2.
    destruct (source_dir !! f) as [[c|]|]; try done.
    apply negb_false_iff in Hf. rewrite Hf. unfold in_images.
    cbn [fst images set_images]. by rewrite lookup_partial_alter_eq.
  - by rewrite copy2_thumbs.
  - intros n [Hne' Hn]%Hsplit.
    destruct (local_frame _ _ s2 n Hloc Hne') as [-> ->]. by apply Hfr.
Qed.

Lemma failed_copy_aborts_witness :
  source (Sample.indexed Sample.two_files) = Directory Sample.two_files ∧
  copy_succeeds Sample.disk_full Sample.two_files "b.jpeg" = false ∧
  let r := main Sample.disk_full (Sample.indexed Sample.two_files)
             Sample.fresh in
  r.2 = None ∧
  imported_of (out r.1) = [("a.jpg", "LOP25-0001.jpeg")] ∧
  index r.1 = index Sample.fresh ∧
  images r.1 !! "LOP25-0002.jpeg" = Some (File "") ∧
  thumbs r.1 !! "LOP25-0002.jpeg" = None.
Proof.
  split; [reflexivity|]. split; [reflexivity|].
  destruct (failed_copy_aborts Sample.disk_full
              (Sample.indexed Sample.two_files) Sample.two_files
              Sample.fresh ["a.jpg"] "b.jpeg" [])
    as (Hr & Himp & Hidx & Himg & Hth & _).
  - reflexivity.
  - by vm_compute.
  - by repeat constructor.
  - reflexivity.
  - cbv zeta. split; [exact Hr|]. split; [exact Himp|]. split; [exact Hidx|].
    split; [exact Himg|exact Hth].
Defined.

(** X15.  A source directory without a file of the four extensions: the run
    prints two lines and ends with status 0; it touches neither directory
    and does not create or change the index, even when an index path is
    given. *)
Theorem nothing_to_import L args source_dir s :
  source args = Directory source_dir →
  (∀ f, is_Some (source_dir !! f) → accepted f = false) →
  main L args s =
  (State (images s) (thumbs s) (index s)
     (out s ++
      [FoundHighest (find_highest_serial_number (Some (listing (images s))));
       NoJpegFound]),
   Some 0).
Proof.
  intros Hsrc Hnone.
  assert (get_image_files (listing source_dir).*1 = []) as Hfiles.
  { destruct (get_image_files _) as [|f rest] eqn:Heq; [done|].
    assert (f ∈ get_image_files (listing source_dir).*1) as Hin
      by (rewrite Heq; left).
    apply get_image_files_elem_of in Hin as [Hin Ha].
    unfold listing in Hin.
    apply list_elem_of_fmap in Hin as ([f' x] & -> & Hx%elem_of_map_to_list).
    cbn [fst] in Ha. rewrite (Hnone f') in Ha by eauto. done. }
  rewrite (main_nothing L args source_dir) by done.
  f_equal. apply state_eq; simpl; try done. by rewrite <- (assoc_L (++)).
Qed.

Lemma nothing_to_import_witness :
  source (Sample.indexed Sample.notes_only) = Directory Sample.notes_only ∧
  main Sample.plain (Sample.indexed Sample.notes_only) Sample.one_image =
  (State (images Sample.one_image) (thumbs Sample.one_image)
     (index Sample.one_image)
     (out Sample.one_image ++
      [FoundHighest (find_highest_serial_number
                       (Some (listing (images Sample.one_image))));
       NoJpegFound]),
   Some 0).
Proof.
  split; [reflexivity|].
  apply (nothing_to_import Sample.plain (Sample.indexed Sample.notes_only)
           Sample.notes_only Sample.one_image).
  - reflexivity.
  - intros f [x Hx].
    destruct (decide (f = "notes.txt")) as [->|Hne]; [reflexivity|].
    unfold Sample.notes_only in Hx. by rewrite lookup_singleton_ne in Hx.
Defined.

(** X16.  Without an index path a run never touches the index, however it
    ends. *)
Theorem no_index_path_no_index_change L args s :
  given (index_file args) = false →
  index (main L args s).1 = index s.
Proof.
  intros Hg. destruct (source args) as [| |source_dir] eqn:Hsrc.
  - unfold main. by rewrite Hsrc.
  - unfold main. by rewrite Hsrc.
  - destruct (get_image_files (listing source_dir).*1) as [|f rest] eqn:Hfiles.
    { by rewrite (main_nothing L args source_dir). }
    pose proof (main_state L args source_dir s Hsrc) as Hst.
    cbv zeta in Hst. destruct Hst as (_ & _ & Hidx); [by rewrite Hfiles|].
    rewrite (Hidx Hg). unfold import_files.
    by destruct (for_each_frame L args source_dir
                   (get_image_files (listing source_dir).*1)
                   ([], find_highest_serial_number
                          (Some (listing (images s))) + 1)
                   (add_out (FoundFiles (length
                      (get_image_files (listing source_dir).*1)))
                      (add_out (FoundHighest (find_highest_serial_number
                         (Some (listing (images s))))) s))) as [-> _].
Qed.

Lemma no_index_path_no_index_change_witness :
  given (index_file (Arguments (Directory Sample.two_files) None None))
    = false ∧
  index (main Sample.plain (Arguments (Directory Sample.two_files) None None)
           (State ∅ ∅ (Document Sample.titled) [])).1
  = index (State ∅ ∅ (Document Sample.titled) []).
Proof.
  split; [reflexivity|].
  apply (no_index_path_no_index_change Sample.plain
           (Arguments (Directory Sample.two_files) None None)
           (State ∅ ∅ (Document Sample.titled) [])).
  reflexivity.
Defined.

(** ** The index *)

(** X17.  An index path that holds nothing, or something [toml.load] raises
    on: the call does not raise, starts from an empty document and writes a
    document whose only key is ["images"], with one entry per name; what was
    unloadable is not kept.  The unloadable case prints a warning first. *)
Theorem index_started_afresh L image_files s :
  index s = NoIndex ∨ index s = Unloadable →
  let r := update_toml_index L image_files s in
  let data := {["images" := TArray (image_entry <$> image_files)]} in
  r.2 = Some tt ∧
  index r.1 = after_write L data (index s) ∧
  out r.1 =
    out s ++ (if index s is Unloadable then [WarnTomlLoad] else []) ++
    [if toml_write L data is Written then UpdatedIndex else ErrTomlWrite] ∧
  images r.1 = images s ∧ thumbs r.1 = thumbs s.
Proof.
  intros Hi. cbv zeta. rewrite update_toml_index_unfold. cbv zeta.
  assert ((if index s is Document d then d else ∅) = (∅ : gmap string toml))
    as -> by (by destruct Hi as [-> | ->]).
  rewrite merge_images_absent by apply lookup_empty. rewrite insert_empty.
  rewrite write_index_unfold. unfold after_write.
  destruct Hi as [Hi|Hi]; rewrite Hi;
    destruct (toml_write L {["images" := TArray (image_entry <$> image_files)]});
    cbn [fst snd index out images thumbs add_out set_index app];
    rewrite <- ?(assoc_L (++)), ?app_nil_r; by repeat split.
Qed.

Lemma index_started_afresh_witness :
  (index (State ∅ ∅ Unloadable []) = NoIndex ∨
   index (State ∅ ∅ Unloadable []) = Unloadable) ∧
  let r := update_toml_index Sample.plain ["LOP25-0001.jpeg"]
             (State ∅ ∅ Unloadable []) in
  r.2 = Some tt ∧
  index r.1 =
    after_write Sample.plain
      {["images" := TArray (image_entry <$> ["LOP25-0001.jpeg"])]}
      Unloadable.
Proof.
  split; [by right|].
  destruct (index_started_afresh Sample.plain ["LOP25-0001.jpeg"]
              (State ∅ ∅ Unloadable [])) as (Hr & Hi & _).
  - by right.
  - cbv zeta. split; [exact Hr|exact Hi].
Defined.

(** X18.  The one way the index merger raises: there are names to add and
    the loaded document has a value under ["images"] that is not a list.  It
    then leaves everything as it was, the index included; in every other
    case it returns, even when the write fails. *)
Theorem update_toml_index_raises_iff L image_files s :
  let r := update_toml_index L image_files s in
  (r.2 = None ↔
   image_files ≠ [] ∧
   ∃ data v, index s = Document data ∧ data !! "images" = Some v ∧
             ∀ l, v ≠ TArray l) ∧
  (r.2 = None → r.1 = s) ∧
  (r.2 = None ∨ r.2 = Some tt).
Proof.
  cbv zeta. rewrite update_toml_index_unfold. cbv zeta.
  assert (∀ data' s', (write_index L data' s').2 = Some tt) as Hw.
  { intros. rewrite write_index_unfold. by destruct (toml_write L data'). }
  assert (∀ P : Prop, (Some tt = None ↔ P) ↔ ¬ P) as Hno.
  { intros P. split; [intros [_ H] HP; by apply H in HP|].
    intros HnP. split; [done|]. intros HP. by destruct HnP. }
  destruct (merge_images _ image_files) as [data'|] eqn:Hm.
  - rewrite Hw. split; [|split; [done|by right]]. apply Hno.
    intros (Hne & data & v & Hi & Hv & Hna). rewrite Hi in Hm.
    destruct image_files as [|f rest]; [done|].
    by rewrite (merge_images_raises _ _ _ _ Hv Hna) in Hm.
  - destruct (index s) as [| |data] eqn:Hi.
    + by rewrite merge_images_absent in Hm by apply lookup_empty.
    + by rewrite merge_images_absent in Hm by apply lookup_empty.
    + cbn [fst snd]. split; [|split; [done|by left]]. split; [|done].
      intros _. split.
      * intros ->. unfold merge_images in Hm. by case_bool_decide.
      * destruct (data !! "images") as [v|] eqn:Hv.
        -- exists data, v. repeat split; try done. intros l ->.
           by rewrite (merge_images_array _ l) in Hm.
        -- by rewrite merge_images_absent in Hm.
Qed.

(** X19.  Merging nothing only makes sure the list is there, and never
    raises; merging two lists of names one after the other is merging the
    two lists put together. *)
Theorem merges_compose data l1 l2 :
  merge_images data [] =
    Some (if data !! "images" is Some _ then data
          else <["images" := TArray []]> data) ∧
  merge_images data (l1 ++ l2) =
    merge_images data l1 ≫= λ d, merge_images d l2.
Proof.
  assert (merge_images data [] =
          Some (if data !! "images" is Some _ then data
                else <["images" := TArray []]> data)) as Hnil.
  { unfold merge_images. cbn [append_images].
    destruct (data !! "images") as [v|] eqn:Hv.
    - by rewrite bool_decide_eq_true_2 by eauto.
    - by rewrite bool_decide_eq_false_2 by (by intros [? ?]). }
  split; [done|].
  destruct (data !! "images") as [v|] eqn:Hv.
  - assert ((∃ l, v = TArray l) ∨ ∀ l, v ≠ TArray l) as [[l ->]|Hna']
      by (destruct v; eauto).
    + rewrite !(merge_images_array _ l) by done. cbn [mbind option_bind].
      rewrite (merge_images_array _ (l ++ (image_entry <$> l1)))
        by apply lookup_insert_eq.
      by rewrite insert_insert_eq, fmap_app, (assoc_L (++)).
    + destruct l1 as [|f rest].
      * cbn [app]. by rewrite Hnil.
      * cbn [app]. by rewrite !(merge_images_raises _ _ _ _ Hv Hna').
  - rewrite !merge_images_absent by done. cbn [mbind option_bind].
    rewrite (merge_images_array _ (image_entry <$> l1))
      by apply lookup_insert_eq.
    by rewrite insert_insert_eq, fmap_app.
Qed.

(** ** The set-up before the run *)

Section Setup.

Variable L : library.
Variable args : arguments.
Variable source_dir : gmap string node.

(** The files a run reports as imported, when every copy goes through. *)
Lemma main_imported s :
  source args = Directory source_dir →
  Forall (λ f, copy_succeeds L source_dir f = true)
    (get_image_files (listing source_dir).*1) →
  imported_of (out (main L args s).1) =
  imported_of (out s) ++
  zip (get_image_files (listing source_dir).*1)
      (serial_names
         (find_highest_serial_number (Some (listing (images s))) + 1)
         (length (get_image_files (listing source_dir).*1))).
Proof.
  intros Hsrc Hok.
  destruct (get_image_files (listing source_dir).*1) as [|f rest] eqn:Hfiles.
  { rewrite (main_nothing L args source_dir) by done. simpl.
    by rewrite !imported_of_app, !app_nil_r. }
  rewrite (main_run L args source_dir) by (done || by rewrite Hfiles).
  rewrite Hfiles. unfold import_files.
  set (S := find_highest_serial_number (Some (listing (images s)))).
  set (s1 := add_out (FoundFiles (length (f :: rest)))
               (add_out (FoundHighest S) s)).
  destruct (import_files_spec L args source_dir (f :: rest) [] (S + 1) s1 Hok)
    as (Hres & _).
  rewrite (bind_run _ _ _ _ Hres).
  destruct (conclude_frame L args
              ([] ++ serial_names (S + 1) (length (f :: rest)),
               S + 1 + N.of_nat (length (f :: rest))).1
              (for_each (f :: rest) ([], S + 1)
                 (import_file L args source_dir) s1).1) as (_ & _ & ->).
  rewrite for_each_imported by done. unfold s1. cbn [out add_out].
  rewrite !imported_of_app. cbn [imported_of omap list_omap].
  by rewrite !app_nil_r.
Qed.

(** A run over a source directory does not end with status 1. *)
Lemma main_status_not_1 s :
  source args = Directory source_dir → (main L args s).2 ≠ Some 1.
Proof.
  intros Hsrc.
  destruct (get_image_files (listing source_dir).*1) as [|f rest] eqn:Hfiles.
  { by rewrite (main_nothing L args source_dir). }
  rewrite (main_run L args source_dir) by (done || by rewrite Hfiles).
  set (loop := import_files L args source_dir _ _). set (s1 := add_out _ _).
  destruct (loop s1).2 as [locals|] eqn:Hr.
  - rewrite (bind_run _ _ _ _ Hr), conclude_unfold.
    destruct (given (index_file args)); [|done]. cbv zeta.
    by destruct (merge_images _ _).
  - by rewrite (bind_raise _ _ _ Hr).
Qed.

End Setup.

(** X20.  The script ends with status 1 exactly when the source is missing
    or is not a directory, and it has then created nothing: the destination
    and the index are as they were.  With a source directory, a file in the
    place of the destination, of [images] or of [thumbs] ends the script in
    an exception before anything is printed or imported. *)
Theorem script_set_up L args d idx :
  let o := script L args d idx in
  (status o = Some 1 ↔ ∀ source_dir, source args ≠ Directory source_dir) ∧
  (status o = Some 1 → destination_after o = d ∧ index_after o = idx) ∧
  (∀ source_dir, source args = Directory source_dir →
     d = DestinationIsFile ∨
     (∃ t, d = Destination Regular t) ∨ (∃ i, d = Destination i Regular) →
     status o = None ∧ printed o = [] ∧ index_after o = idx).
Proof.
  cbv zeta. unfold script.
  destruct (source args) as [| |source_dir] eqn:Hsrc.
  - repeat split; try done.
  - repeat split; try done.
  - assert (∀ im th,
      (main L args (State im th idx [])).2 ≠ Some 1) as Hmain.
    { intros. by apply (main_status_not_1 L args source_dir). }
    split; [|split].
    + split; [|intros Hno; by destruct (Hno source_dir)].
      destruct d as [| |[| |im] [| |th]]; cbn [status mkdir]; try done;
        intros H1; by apply Hmain in H1.
    + destruct d as [| |[| |im] [| |th]]; cbn [status mkdir]; try done;
        intros H1; by apply Hmain in H1.
    + intros sd _ [->|[[t ->]|[i ->]]]; [done|done|].
      by destruct i.
Qed.

(** X21.  Run on a destination that does not exist yet, and with every copy
    going through, the script makes the two directories and numbers the
    files from 1: the first file of the source is imported as
    [LOP25-0001.jpeg], and every new name is there afterwards. *)
Theorem script_starts_at_1 L args source_dir idx :
  source args = Directory source_dir →
  let image_files := get_image_files (listing source_dir).*1 in
  Forall (λ f, copy_succeeds L source_dir f = true) image_files →
  let o := script L args NoDestination idx in
  imported_of (printed o) =
    zip image_files (serial_names 1 (length image_files)) ∧
  ∃ im th,
    destination_after o = Destination (Folder im) (Folder th) ∧
    ∀ name, name ∈ serial_names 1 (length image_files) → is_Some (im !! name).
Proof.
  intros Hsrc. cbv zeta. intros Hok. unfold script. rewrite Hsrc.
  cbn [mkdir destination_after printed].
  split.
  - by rewrite (main_imported L args source_dir) by done.
  - eexists _, _. split; [done|].
    intros name (i & Hi & ->)%serial_names_elem_of.
    destruct (lookup_lt_is_Some_2 _ _ Hi) as [f Hf].
    destruct (main_item L args source_dir (State ∅ ∅ idx []) i f Hsrc Hok Hf)
      as [Himg _].
    change (find_highest_serial_number
              (Some (listing (images (State ∅ ∅ idx [])))) + 1) with 1
      in Himg.
    rewrite Himg.
    assert (copy_succeeds L source_dir f = true) as Hc.
    { rewrite Forall_forall in Hok. apply Hok. by eapply list_elem_of_lookup_2. }
    by destruct (import_file_alone L args source_dir ([], 1 + N.of_nat i) f
                   (State ∅ ∅ idx []) Hc) as (Hp & _).
Qed.

Lemma script_starts_at_1_witness :
  source (Sample.indexed Sample.two_files) = Directory Sample.two_files ∧
  imported_of (printed (script Sample.plain (Sample.indexed Sample.two_files)
                          NoDestination NoIndex)) =
  zip (get_image_files (listing Sample.two_files).*1)
      (serial_names 1 (length (get_image_files (listing Sample.two_files).*1))).
Proof.
  split; [reflexivity|].
  apply (script_starts_at_1 Sample.plain (Sample.indexed Sample.two_files)
           Sample.two_files NoIndex).
  - reflexivity.
  - vm_compute. by repeat constructor.
Defined.

(** ** What the allocator does not look at *)

(** X22.  Directories and names the pattern does not match play no part in
    the scan: the scan of a listing is the scan of its files with a matching
    name. *)
Theorem allocator_ignores_the_rest listing :
  find_highest_serial_number (Some listing) =
  find_highest_serial_number
    (Some (filter (λ e : entry, is_file e.2 = true ∧
                                is_Some (Name.pattern_match e.1)) listing)).
Proof.
  unfold find_highest_serial_number. generalize 0.
  induction listing as [|e listing IH]; intros a; [done|].
  rewrite filter_cons. cbn [fold_left].
  case_decide as He.
  - cbn [fold_left]. apply IH.
  - rewrite <- IH. f_equal. unfold scan_step.
    destruct (is_file e.2) eqn:Hf; [|done].
    destruct (Name.pattern_match e.1) as [g|] eqn:Hg; [|done].
    destruct He. split; [done|eauto].
Qed.
